(** * free-chat-frontend: the message-delivery core of [src/App.tsx]

    A shallow embedding of the client delivery agent of the chat UI: the
    dedup filter ([receivedMessageIds]), the pending ledger
    ([pendingMessages]) with its retry timers and acknowledgment callbacks,
    the connection handlers, the send form and the colour helper
    [stringToNeonColor].

    JavaScript values are modelled as follows.
    - A string is the list of its UTF-16 code units ([charCodeAt] reads
      one of them).
    - A Number holding an integer is a [Z]. Integers up to 2^53 in
      magnitude are all Numbers; beyond that the operators [+] and [-]
      round their exact result to the nearest Number ([roundD]), which
      the hash loop of [stringToNeonColor] can reach on strings of more
      than 2^21 code units (see [hashOf_magnitude] and
      [hashOf_headroom]). Clock readings and ids never get there.
    - [Set<string>] is a [gset], [Map<string, _>] is a [gmap]: the code
      only uses [has], [add], [get], [set] and [delete] on them.
    - The closures handed to [socket.emit] and [setTimeout] are
      defunctionalised: each one captures [msgData] and [retryCount], so
      the table of armed timers and the table of awaited acknowledgments
      store exactly that pair. *)

From stdpp Require Import base numbers option list gmap sets strings pretty.
From Stdlib Require Import ZArith Lia Ascii.

Local Open Scope Z_scope.
Set Warnings "-clear-no-such-hyp".

(** ** JavaScript primitives used by the component *)

Module JS.

(** A string as its UTF-16 code units. *)
Abbreviation jsstring := (list N).

Definition of_ascii (s : string) : jsstring :=
  (λ c, N_of_ascii c) <$> String.list_ascii_of_string s.

(** A string value is well formed when every unit fits in 16 bits. *)
Definition wf_string (s : jsstring) : Prop := Forall (λ c, (c < 65536)%N) s.

(** [ToInt32] of ECMA-262, on an integral Number. *)
Definition ToInt32 (x : Z) : Z :=
  let r := x mod 2 ^ 32 in
  if r <? 2 ^ 31 then r else r - 2 ^ 32.

(** [x << k]: both operands go through the 32-bit conversions, the shift
    count is masked with 0x1F and the result is an int32 again. *)
Definition shl (x k : Z) : Z :=
  ToInt32 (Z.shiftl (ToInt32 x) (Z.land (k mod 2 ^ 32) 31)).

(** [Math.abs] and the remainder operator [%] (sign of the dividend). *)
Definition Math_abs (x : Z) : Z := Z.abs x.
Definition rem (x y : Z) : Z := Z.rem x y.

(** Number-to-string conversion of an integral Number (template
    literals, [Date.now()] in an id). *)
Definition NumberToString (x : Z) : jsstring := of_ascii (pretty x).

(** The Number nearest to the integer [x]. Integers up to 2^53 in
    magnitude are Numbers; beyond, a Number is a 53-bit significand [q]
    times a power of two [2 ^ e], and an arithmetic operator returns the
    Number nearest to its exact result, a tie going to the even
    significand. (The largest finite Number is just below 2^1024; the
    hash loop stays far from it, see [hashOf_headroom].) *)
Definition roundD (x : Z) : Z :=
  let a := Z.abs x in
  if a <=? 2 ^ 53 then x
  else
    let e := Z.log2 a - 52 in
    let q := a / 2 ^ e in
    let r := a mod 2 ^ e in
    let half := 2 ^ (e - 1) in
    let q' := if r <? half then q
              else if half <? r then q + 1
              else if Z.even q then q else q + 1 in
    Z.sgn x * (q' * 2 ^ e).

(** [x + y] and [x - y] on Numbers holding integers. *)
Definition add (x y : Z) : Z := roundD (x + y).
Definition sub (x y : Z) : Z := roundD (x - y).

(** White space and line terminators, as [String.prototype.trim]
    strips them. *)
Definition isWhiteSpace (c : N) : bool :=
  ((c =? 9) || (c =? 10) || (c =? 11) || (c =? 12) || (c =? 13)
   || (c =? 32) || (c =? 160) || (c =? 5760)
   || ((8192 <=? c) && (c <=? 8202))
   || (c =? 8232) || (c =? 8233) || (c =? 8239) || (c =? 8287)
   || (c =? 12288) || (c =? 65279))%N.

Fixpoint trimStart (s : jsstring) : jsstring :=
  match s with
  | c :: s' => if isWhiteSpace c then trimStart s' else s
  | [] => []
  end.

Definition trimEnd (s : jsstring) : jsstring := rev (trimStart (rev s)).

Definition trim (s : jsstring) : jsstring := trimEnd (trimStart s).

(** Truthiness of a string: only the empty string is falsy. *)
Definition truthy (s : jsstring) : bool :=
  match s with [] => false | _ :: _ => true end.

End JS.

Import JS.

(** ** [stringToNeonColor] *)

(** The loop body: [hash = str.charCodeAt(i) + ((hash << 5) - hash)].
    [hash << 5] is an int32; the subtraction and the addition are done
    on Numbers. *)
Definition hashStep (hash : Z) (c : N) : Z :=
  add (Z.of_N c) (sub (shl hash 5) hash).

(** The [for] loop over the code units, from [hash = 0]. *)
Definition hashOf (str : jsstring) : Z := foldl hashStep 0 str.

(** [const h = Math.abs(hash) % 360]. *)
Definition hueOf (str : jsstring) : Z := rem (Math_abs (hashOf str)) 360.

Definition stringToNeonColor (str : jsstring) : jsstring :=
  of_ascii "hsl(" ++ NumberToString (hueOf str) ++ of_ascii ", 100%, 60%)".

(** An integer that is a Number: a significand of at most 53 bits times
    a power of two. *)
Definition representable (b : Z) : Prop :=
  ∃ m k, 0 ≤ k ∧ 0 ≤ m ≤ 2 ^ 53 ∧ b = m * 2 ^ k.

(** A ladder of Numbers, each rung at least 2^31 above the one before:
    the multiples of 2^31 up to 2^84, then those of 2^32 up to 2^85, then
    those of 2^33. It bounds the hash from above: one turn of the loop
    climbs at most two rungs. *)
Definition headroom (j : Z) : Z :=
  if j <=? 2 ^ 53 then j * 2 ^ 31
  else if j <=? 2 ^ 53 + 2 ^ 52 then (j - 2 ^ 52) * 2 ^ 32
  else (j - 2 ^ 53) * 2 ^ 33.

(** Reading a decimal numeral: the value of a string of digits, and the
    test that [ds] is the decimal numeral of [h], that is digits only, at
    least one of them, and no leading zero except in [0] itself. *)
Definition isDigit (d : N) : bool := ((48 <=? d) && (d <=? 57))%N.

Definition digitsValue (ds : jsstring) : Z :=
  foldl (λ a d, 10 * a + (Z.of_N d - 48)) 0 ds.

Definition isNumeralOf (ds : jsstring) (h : Z) : bool :=
  forallb isDigit ds
  && match ds with
     | [] => false
     | [_] => true
     | d :: _ => negb (d =? 48)%N
     end
  && (digitsValue ds =? h).


(** ** Data model *)

(** [interface Message]. *)
Record Message := mkMessage {
  msg_text : jsstring;
  msg_senderId : jsstring;
  msg_id : jsstring;
  msg_timestamp : option Z
}.

(** [interface PendingMessage extends Message]: the spread [...msgData]
    with [retryCount] and the timer handle. *)
Record PendingMessage := mkPending {
  pm_msg : Message;
  retryCount : nat;
  timeout : option positive
}.

(** An armed [setTimeout]: the closure captures [msgData] and
    [retryCount]; [tm_deadline] is the instant from which it may fire. *)
Record Timer := mkTimer {
  tm_msg : Message;
  tm_retry : nat;
  tm_deadline : Z
}.

(** An acknowledgment callback handed to [socket.emit], awaiting the
    relay's answer; it captures [msgData] and [retryCount]. *)
Record AckWait := mkAckWait {
  aw_msg : Message;
  aw_retry : nat
}.

(** The argument of an acknowledgment callback ([ackResponse: any]):
    nothing at all, or an object [{success, error?}]. *)
Inductive AckResponse :=
  | AckUndefined
  | AckObject (success : bool) (error : option jsstring).

(** [ackResponse && ackResponse.success]. *)
Definition ack_success (r : AckResponse) : bool :=
  match r with
  | AckObject true _ => true
  | _ => false
  end.

(** [ackResponse?.error]. *)
Definition ack_error (r : AckResponse) : option jsstring :=
  match r with
  | AckObject _ e => e
  | AckUndefined => None
  end.

(** One [socket.emit('send_message', msgData, cb)], stamped with the
    instant of the call. *)
Record Emission := mkEmission {
  em_time : Z;
  em_msg : Message
}.

(** The lines the component writes to the console, one constructor per
    call site. *)
Inductive ConsoleLine :=
  | LogSending (attempt : nat) (i : jsstring)
  | LogAckReceived (r : AckResponse)
  | LogConfirmed (i : jsstring)
  | ErrServer (error : option jsstring)
  | WarnNoAck (i : jsstring)
  | LogRetrying (i : jsstring) (n : nat)
  | ErrFailed (i : jsstring)
  | LogConnected
  | LogDisconnected
  | LogReconnectAttempt (attempt : Z)
  | LogReconnected (attemptNumber : Z)
  | LogSynced (n : nat)
  | LogNewMessage (i : jsstring)
  | LogDuplicate (i : jsstring).

(** The session: React state, the two refs, and the environment the
    component talks to (clock, timer table, socket). *)
Record State := mkState {
  MY_USER_ID : jsstring;
  (* useState *)
  message : jsstring;
  messages : list Message;
  userCount : Z;
  isConnected : bool;
  (* useRef *)
  receivedMessageIds : gset jsstring;
  pendingMessages : gmap jsstring PendingMessage;
  (* environment *)
  now : Z;
  timers : gmap positive Timer;
  nextTimer : positive;
  acks : gmap N AckWait;
  nextAck : N;
  sent : list Emission;
  console : list ConsoleLine
}.

Definition MAX_RETRIES : nat := 3.
Definition RETRY_TIMEOUT : Z := 3000.

(** The component right after mounting, for a given identity, clock and
    transport status. *)
Definition initial (me : jsstring) (t0 : Z) (connected : bool) : State :=
  {| MY_USER_ID := me; message := []; messages := []; userCount := 0;
     isConnected := connected; receivedMessageIds := ∅;
     pendingMessages := ∅; now := t0; timers := ∅; nextTimer := 1;
     acks := ∅; nextAck := 0; sent := []; console := [] |}.

(** Field updates of the session record. *)
Definition upd_message (f : jsstring → jsstring) (st : State) : State :=
  {| MY_USER_ID := MY_USER_ID st; message := f (message st);
     messages := messages st; userCount := userCount st;
     isConnected := isConnected st;
     receivedMessageIds := receivedMessageIds st;
     pendingMessages := pendingMessages st; now := now st;
     timers := timers st; nextTimer := nextTimer st; acks := acks st;
     nextAck := nextAck st; sent := sent st; console := console st |}.
Definition upd_messages (f : list Message → list Message) (st : State) : State :=
  {| MY_USER_ID := MY_USER_ID st; message := message st;
     messages := f (messages st); userCount := userCount st;
     isConnected := isConnected st;
     receivedMessageIds := receivedMessageIds st;
     pendingMessages := pendingMessages st; now := now st;
     timers := timers st; nextTimer := nextTimer st; acks := acks st;
     nextAck := nextAck st; sent := sent st; console := console st |}.
Definition upd_userCount (f : Z → Z) (st : State) : State :=
  {| MY_USER_ID := MY_USER_ID st; message := message st;
     messages := messages st; userCount := f (userCount st);
     isConnected := isConnected st;
     receivedMessageIds := receivedMessageIds st;
     pendingMessages := pendingMessages st; now := now st;
     timers := timers st; nextTimer := nextTimer st; acks := acks st;
     nextAck := nextAck st; sent := sent st; console := console st |}.
Definition upd_isConnected (f : bool → bool) (st : State) : State :=
  {| MY_USER_ID := MY_USER_ID st; message := message st;
     messages := messages st; userCount := userCount st;
     isConnected := f (isConnected st);
     receivedMessageIds := receivedMessageIds st;
     pendingMessages := pendingMessages st; now := now st;
     timers := timers st; nextTimer := nextTimer st; acks := acks st;
     nextAck := nextAck st; sent := sent st; console := console st |}.
Definition upd_receivedMessageIds (f : gset jsstring → gset jsstring) (st : State) : State :=
  {| MY_USER_ID := MY_USER_ID st; message := message st;
     messages := messages st; userCount := userCount st;
     isConnected := isConnected st;
     receivedMessageIds := f (receivedMessageIds st);
     pendingMessages := pendingMessages st; now := now st;
     timers := timers st; nextTimer := nextTimer st; acks := acks st;
     nextAck := nextAck st; sent := sent st; console := console st |}.
Definition upd_pendingMessages (f : gmap jsstring PendingMessage → gmap jsstring PendingMessage) (st : State) : State :=
  {| MY_USER_ID := MY_USER_ID st; message := message st;
     messages := messages st; userCount := userCount st;
     isConnected := isConnected st;
     receivedMessageIds := receivedMessageIds st;
     pendingMessages := f (pendingMessages st); now := now st;
     timers := timers st; nextTimer := nextTimer st; acks := acks st;
     nextAck := nextAck st; sent := sent st; console := console st |}.
Definition upd_now (f : Z → Z) (st : State) : State :=
  {| MY_USER_ID := MY_USER_ID st; message := message st;
     messages := messages st; userCount := userCount st;
     isConnected := isConnected st;
     receivedMessageIds := receivedMessageIds st;
     pendingMessages := pendingMessages st; now := f (now st);
     timers := timers st; nextTimer := nextTimer st; acks := acks st;
     nextAck := nextAck st; sent := sent st; console := console st |}.
Definition upd_timers (f : gmap positive Timer → gmap positive Timer) (st : State) : State :=
  {| MY_USER_ID := MY_USER_ID st; message := message st;
     messages := messages st; userCount := userCount st;
     isConnected := isConnected st;
     receivedMessageIds := receivedMessageIds st;
     pendingMessages := pendingMessages st; now := now st;
     timers := f (timers st); nextTimer := nextTimer st;
     acks := acks st; nextAck := nextAck st; sent := sent st;
     console := console st |}.
Definition upd_nextTimer (f : positive → positive) (st : State) : State :=
  {| MY_USER_ID := MY_USER_ID st; message := message st;
     messages := messages st; userCount := userCount st;
     isConnected := isConnected st;
     receivedMessageIds := receivedMessageIds st;
     pendingMessages := pendingMessages st; now := now st;
     timers := timers st; nextTimer := f (nextTimer st);
     acks := acks st; nextAck := nextAck st; sent := sent st;
     console := console st |}.
Definition upd_acks (f : gmap N AckWait → gmap N AckWait) (st : State) : State :=
  {| MY_USER_ID := MY_USER_ID st; message := message st;
     messages := messages st; userCount := userCount st;
     isConnected := isConnected st;
     receivedMessageIds := receivedMessageIds st;
     pendingMessages := pendingMessages st; now := now st;
     timers := timers st; nextTimer := nextTimer st;
     acks := f (acks st); nextAck := nextAck st; sent := sent st;
     console := console st |}.
Definition upd_nextAck (f : N → N) (st : State) : State :=
  {| MY_USER_ID := MY_USER_ID st; message := message st;
     messages := messages st; userCount := userCount st;
     isConnected := isConnected st;
     receivedMessageIds := receivedMessageIds st;
     pendingMessages := pendingMessages st; now := now st;
     timers := timers st; nextTimer := nextTimer st; acks := acks st;
     nextAck := f (nextAck st); sent := sent st;
     console := console st |}.
Definition upd_sent (f : list Emission → list Emission) (st : State) : State :=
  {| MY_USER_ID := MY_USER_ID st; message := message st;
     messages := messages st; userCount := userCount st;
     isConnected := isConnected st;
     receivedMessageIds := receivedMessageIds st;
     pendingMessages := pendingMessages st; now := now st;
     timers := timers st; nextTimer := nextTimer st; acks := acks st;
     nextAck := nextAck st; sent := f (sent st);
     console := console st |}.
Definition upd_console (f : list ConsoleLine → list ConsoleLine) (st : State) : State :=
  {| MY_USER_ID := MY_USER_ID st; message := message st;
     messages := messages st; userCount := userCount st;
     isConnected := isConnected st;
     receivedMessageIds := receivedMessageIds st;
     pendingMessages := pendingMessages st; now := now st;
     timers := timers st; nextTimer := nextTimer st; acks := acks st;
     nextAck := nextAck st; sent := sent st;
     console := f (console st) |}.

(** ** The handlers run in a state monad over the session *)

Definition M (A : Type) : Type := State → A * State.

Global Instance M_ret : MRet M := λ A a st, (a, st).
Global Instance M_bind : MBind M := λ A B k c st,
  let (a, st') := c st in k a st'.

Definition exec {A} (c : M A) (st : State) : State := (c st).2.

Definition get {A} (f : State → A) : M A := λ st, (f st, st).
Definition modify (f : State → State) : M unit := λ st, ((), f st).

(** React setters. *)
Definition setMessage (v : jsstring) : M unit := modify (upd_message (λ _, v)).
Definition setMessages (f : list Message → list Message) : M unit :=
  modify (upd_messages f).
Definition setUserCount (n : Z) : M unit := modify (upd_userCount (λ _, n)).
Definition setIsConnected (b : bool) : M unit :=
  modify (upd_isConnected (λ _, b)).

(** [console.log], [console.warn], [console.error]. *)
Definition console_write (l : ConsoleLine) : M unit :=
  modify (upd_console (λ c, c ++ [l])).

(** [socket.emit('send_message', msgData, cb)]: the packet leaves, and the
    callback waits in the socket's acknowledgment table. *)
Definition socket_emit (msgData : Message) (retryCount : nat) : M unit :=
  modify (λ st,
    upd_sent (λ s, s ++ [mkEmission (now st) msgData])
      (upd_nextAck N.succ
        (upd_acks <[nextAck st := mkAckWait msgData retryCount]> st))).

(** [setTimeout(cb, delay)]: a fresh handle, armed for [now + delay].
    Handles are positive numbers, hence truthy. *)
Definition setTimeout (msgData : Message) (retryCount : nat) (delay : Z)
  : M positive :=
  λ st, (nextTimer st,
         upd_nextTimer Pos.succ
           (upd_timers
              <[nextTimer st := mkTimer msgData retryCount (now st + delay)]>
              st)).

(** [clearTimeout(handle)]. *)
Definition clearTimeout (t : positive) : M unit := modify (upd_timers (delete t)).

(** [receivedMessageIds.current]. *)
Definition ids_has (i : jsstring) : M bool :=
  get (λ st, bool_decide (i ∈ receivedMessageIds st)).
Definition ids_add (i : jsstring) : M unit :=
  modify (upd_receivedMessageIds (λ s, {[ i ]} ∪ s)).

(** [pendingMessages.current]. *)
Definition pending_get (i : jsstring) : M (option PendingMessage) :=
  get (λ st, pendingMessages st !! i).
Definition pending_has (i : jsstring) : M bool :=
  get (λ st, bool_decide (is_Some (pendingMessages st !! i))).
Definition pending_set (i : jsstring) (p : PendingMessage) : M unit :=
  modify (upd_pendingMessages <[i := p]>).
Definition pending_delete (i : jsstring) : M unit :=
  modify (upd_pendingMessages (delete i)).

(** ** The delivery agent *)

(** [sendMessageWithRetry(msgData, retryCount = 0)]. *)
Definition sendMessageWithRetry (msgData : Message) (retryCount : nat)
  : M unit :=
  console_write (LogSending (retryCount + 1) (msg_id msgData));;
  socket_emit msgData retryCount;;
  timeout ← setTimeout msgData retryCount RETRY_TIMEOUT;
  pending_set (msg_id msgData) (mkPending msgData retryCount (Some timeout)).

(** [handleMessageFailure(msgData, retryCount)]. *)
Definition handleMessageFailure (msgData : Message) (retryCount : nat)
  : M unit :=
  pending ← pending_get (msg_id msgData);
  match pending ≫= timeout with
  | Some t => clearTimeout t
  | None => mret ()
  end;;
  if (retryCount <? MAX_RETRIES)%nat then
    console_write (LogRetrying (msg_id msgData) (retryCount + 1));;
    sendMessageWithRetry msgData (retryCount + 1)
  else
    console_write (ErrFailed (msg_id msgData));;
    pending_delete (msg_id msgData).

(** The acknowledgment callback created by
    [sendMessageWithRetry(msgData, retryCount)]. *)
Definition ackCallback (msgData : Message) (retryCount : nat)
    (ackResponse : AckResponse) : M unit :=
  console_write (LogAckReceived ackResponse);;
  if ack_success ackResponse then
    pending_delete (msg_id msgData);;
    console_write (LogConfirmed (msg_id msgData))
  else
    console_write (ErrServer (ack_error ackResponse));;
    handleMessageFailure msgData retryCount.

(** The timer callback created by
    [sendMessageWithRetry(msgData, retryCount)]. *)
Definition timerCallback (msgData : Message) (retryCount : nat) : M unit :=
  has ← pending_has (msg_id msgData);
  if (has : bool) then
    console_write (WarnNoAck (msg_id msgData));;
    handleMessageFailure msgData retryCount
  else mret ().

(** The id of a new message:
    [`${Date.now()}-${Math.random().toString(36).substring(7)}`]; the
    random suffix is supplied by the environment. *)
Definition newId (t : Z) (rnd : jsstring) : jsstring :=
  NumberToString t ++ of_ascii "-" ++ rnd.

(** [sendMessage(e)], the form's submit handler. *)
Definition sendMessage (rnd : jsstring) : M unit :=
  message ← get message;
  if truthy (trim (message : jsstring)) then
    me ← get MY_USER_ID;
    t ← get now;
    let newMessage := mkMessage message me (newId t rnd) None in
    sendMessageWithRetry newMessage 0;;
    setMessage []
  else mret ().

(** Connection handlers. *)
Definition handleConnect : M unit :=
  console_write LogConnected;;
  setIsConnected true.

Definition handleDisconnect : M unit :=
  console_write LogDisconnected;;
  setIsConnected false.

Definition handleReconnectAttempt (attempt : Z) : M unit :=
  console_write (LogReconnectAttempt attempt).

Definition handleReconnect (attemptNumber : Z) : M unit :=
  console_write (LogReconnected attemptNumber);;
  setIsConnected true.

(** [Array.prototype.filter] with a callback that has effects: the
    elements are visited from left to right. *)
Fixpoint filterM {A} (f : A → M bool) (l : list A) : M (list A) :=
  match l with
  | [] => mret []
  | x :: l' =>
      keep ← f x;
      rest ← filterM f l';
      mret (if (keep : bool) then x :: rest else rest)
  end.

(** The callback of the filter in [handleSyncMessages]. *)
Definition syncFilter (msg : Message) : M bool :=
  has ← ids_has (msg_id msg);
  if negb (has : bool) then
    ids_add (msg_id msg);;
    mret true
  else mret false.

Definition handleSyncMessages (syncedMessages : list Message) : M unit :=
  console_write (LogSynced (length syncedMessages));;
  newMessages ← filterM syncFilter syncedMessages;
  if (0 <? length newMessages)%nat then
    setMessages (λ prev, prev ++ newMessages)
  else mret ().

Definition handleReceiveMessage (data : Message) : M unit :=
  has ← ids_has (msg_id data);
  if negb (has : bool) then
    ids_add (msg_id data);;
    setMessages (λ prev, prev ++ [data]);;
    console_write (LogNewMessage (msg_id data))
  else
    console_write (LogDuplicate (msg_id data)).

Definition handleUserCount (count : Z) : M unit := setUserCount count.

(** ** Events and runs *)

(** What can happen to the session; every event runs one handler to
    completion. *)
Inductive Event :=
  | EvInput (value : jsstring)
  | EvSubmit (rnd : jsstring)
  | EvAck (k : N) (ackResponse : AckResponse)
  | EvTimer (t : positive)
  | EvAdvance (dt : Z)
  | EvConnect
  | EvDisconnect
  | EvReconnectAttempt (attempt : Z)
  | EvReconnect (attemptNumber : Z)
  | EvSyncMessages (syncedMessages : list Message)
  | EvReceiveMessage (data : Message)
  | EvUserCount (count : Z).

(** One event. [None] when the environment cannot produce it: an answer
    to an emit that awaits none (the socket calls an acknowledgment
    callback at most once), a timer that is not armed or whose delay has
    not elapsed, time running backwards. *)
Definition step (e : Event) (st : State) : option State :=
  match e with
  | EvInput v => Some (exec (setMessage v) st)
  | EvSubmit rnd => Some (exec (sendMessage rnd) st)
  | EvAck k r =>
      w ← acks st !! k;
      Some (exec (ackCallback (aw_msg w) (aw_retry w) r)
              (upd_acks (delete k) st))
  | EvTimer t =>
      tm ← timers st !! t;
      if tm_deadline tm <=? now st then
        Some (exec (timerCallback (tm_msg tm) (tm_retry tm))
                (upd_timers (delete t) st))
      else None
  | EvAdvance dt =>
      if 0 <=? dt then Some (upd_now (λ t, t + dt) st) else None
  | EvConnect => Some (exec handleConnect st)
  | EvDisconnect => Some (exec handleDisconnect st)
  | EvReconnectAttempt n => Some (exec (handleReconnectAttempt n) st)
  | EvReconnect n => Some (exec (handleReconnect n) st)
  | EvSyncMessages l => Some (exec (handleSyncMessages l) st)
  | EvReceiveMessage d => Some (exec (handleReceiveMessage d) st)
  | EvUserCount n => Some (exec (handleUserCount n) st)
  end.

Fixpoint run (evs : list Event) (st : State) : option State :=
  match evs with
  | [] => Some st
  | e :: evs' => st' ← step e st; run evs' st'
  end.


(** ** Observations used by the statements *)

(** What the rendered page depends on: the React state. *)
Definition view (st : State) : jsstring * list Message * Z * bool :=
  (message st, messages st, userCount st, isConnected st).

(** The entries of a list of messages that carry the id [i]. *)
Definition with_id (i : jsstring) (l : list Message) : list Message :=
  filter (λ m, msg_id m = i) l.

(** The messages an event delivers from the relay. *)
Definition delivered (e : Event) : list Message :=
  match e with
  | EvReceiveMessage d => [d]
  | EvSyncMessages l => l
  | _ => []
  end.

Definition deliveries (evs : list Event) : list Message :=
  evs ≫= delivered.

(** The dedup filter as the specification words it: [admit(id)], here
    [admitOne], answers true and records the id the first time it is
    seen, and answers false, with no effect, afterwards. *)
Definition admitOne (i : jsstring) (seen : gset jsstring)
  : bool * gset jsstring :=
  if bool_decide (i ∈ seen) then (false, seen) else (true, {[ i ]} ∪ seen).

(** A batch put through [admitOne] one message at a time, in order. *)
Fixpoint admitBatch (seen : gset jsstring) (l : list Message)
  : list Message * gset jsstring :=
  match l with
  | [] => ([], seen)
  | m :: l' =>
      let (ok, seen1) := admitOne (msg_id m) seen in
      let (rest, seen2) := admitBatch seen1 l' in
      (if ok then m :: rest else rest, seen2)
  end.

(** The dedup set and the timeline agree: the ids recorded are the ids
    shown, and no id is shown twice. *)
Definition dedup_inv (st : State) : Prop :=
  NoDup (msg_id <$> messages st)
  ∧ ∀ i, i ∈ receivedMessageIds st ↔ i ∈ msg_id <$> messages st.

(** The timer that [handleMessageFailure] cancels: the handle recorded
    in the ledger entry of the message, if there is one. *)
Definition cancelRecorded (i : jsstring) (st : State) : State :=
  match pendingMessages st !! i ≫= timeout with
  | Some t => upd_timers (delete t) st
  | None => st
  end.

(** The transmissions of the message id [i] so far, oldest first. *)
Definition emits_of (i : jsstring) (st : State) : list Emission :=
  filter (λ e, msg_id (em_msg e) = i) (sent st).

(** The armed timers whose callback is about the message id [i]. *)
Definition timers_of (i : jsstring) (st : State) : gmap positive Timer :=
  filter (λ kv, msg_id (tm_msg kv.2) = i) (timers st).

(** The terminal-failure reports about the message id [i]. *)
Definition is_failure_of (i : jsstring) (l : ConsoleLine) : bool :=
  match l with
  | ErrFailed j => bool_decide (j = i)
  | _ => false
  end.

Definition failures_of (i : jsstring) (st : State) : list ConsoleLine :=
  filter (λ l, is_failure_of i l = true) (console st).

(** Instants at least [RETRY_TIMEOUT] apart, each from the previous. *)
Fixpoint spaced (ts : list Z) : Prop :=
  match ts with
  | t1 :: ((t2 :: _) as rest) => t1 + RETRY_TIMEOUT ≤ t2 ∧ spaced rest
  | _ => True
  end.

(** Timer handles are handed out in increasing order, and the handle
    recorded in a ledger entry, while still armed, belongs to a timer of
    that very message. *)
Definition wf_timers (st : State) : Prop :=
  (∀ t tm, timers st !! t = Some tm → (t < nextTimer st)%positive)
  ∧ (∀ j p t, pendingMessages st !! j = Some p → timeout p = Some t →
       (t < nextTimer st)%positive
       ∧ ∀ tm, timers st !! t = Some tm → msg_id (tm_msg tm) = j).

(** Two sessions that agree on everything kept about the message id
    [i]: ledger entry, armed timers, transmissions, failure reports. *)
Definition same_for (i : jsstring) (st st' : State) : Prop :=
  pendingMessages st' !! i = pendingMessages st !! i
  ∧ timers_of i st' = timers_of i st
  ∧ emits_of i st' = emits_of i st
  ∧ failures_of i st' = failures_of i st.

(** An event that is not about the message id [i]: not an answer to one
    of its transmissions, and not a submission that would reuse the id. *)
Definition silent (i : jsstring) (e : Event) (st : State) : Prop :=
  match e with
  | EvAck k _ => ∀ w, acks st !! k = Some w → msg_id (aw_msg w) ≠ i
  | EvSubmit rnd => newId (now st) rnd ≠ i
  | _ => True
  end.

Fixpoint silent_run (i : jsstring) (evs : list Event) (st : State) : Prop :=
  match evs with
  | [] => True
  | e :: evs' =>
      silent i e st
      ∧ match step e st with
        | Some st' => silent_run i evs' st'
        | None => True
        end
  end.

(** The life of a message nobody acknowledges. Either it is in flight
    after [n] retransmissions: the ledger holds it with that count, one
    timer is armed for it, and it went out [n + 1] times, suitably
    spaced, the last time one [RETRY_TIMEOUT] before the armed deadline.
    Or it was given up: no entry, no timer, [1 + MAX_RETRIES]
    transmissions and one failure report. *)
Inductive Unacked (m : Message) (st : State) : Prop :=
  | InFlight (n : nat) (t : positive) (d : Z) (ts : list Z) :
      (n ≤ MAX_RETRIES)%nat →
      pendingMessages st !! msg_id m = Some (mkPending m n (Some t)) →
      timers_of (msg_id m) st = {[ t := mkTimer m n d ]} →
      emits_of (msg_id m) st = (λ τ, mkEmission τ m) <$> ts →
      length ts = S n →
      spaced ts →
      last ts = Some (d - RETRY_TIMEOUT) →
      failures_of (msg_id m) st = [] →
      Unacked m st
  | GivenUp (ts : list Z) :
      pendingMessages st !! msg_id m = None →
      timers_of (msg_id m) st = ∅ →
      emits_of (msg_id m) st = (λ τ, mkEmission τ m) <$> ts →
      length ts = S MAX_RETRIES →
      spaced ts →
      failures_of (msg_id m) st = [ErrFailed (msg_id m)] →
      Unacked m st.

(** Scenarios. A user [me] types [hi] and submits at instant 1000. *)
Definition hi_id : jsstring := newId 1000 (of_ascii "k3").
Definition hi : Message :=
  mkMessage (of_ascii "hi") (of_ascii "me") hi_id None.
Definition hi_submitted : list Event :=
  [EvInput (of_ascii "hi"); EvSubmit (of_ascii "k3")].
Definition mounted : State := initial (of_ascii "me") 1000 true.
Definition nack : AckResponse := AckObject false (Some (of_ascii "busy")).
Definition ack_ok : AckResponse := AckObject true None.

(** Nobody answers: the four timers elapse one after the other. *)
Definition hi_unanswered : list Event :=
  hi_submitted
  ++ [EvAdvance 3000; EvTimer 1; EvAdvance 3000; EvTimer 2;
      EvAdvance 3000; EvTimer 3; EvAdvance 3000; EvTimer 4].

(** The message id [i] has never been used in the session. *)
Definition fresh (i : jsstring) (st : State) : Prop :=
  timers_of i st = ∅ ∧ emits_of i st = [] ∧ failures_of i st = [].

(** The session just before the last timer of the unanswered message
    fires. *)
Definition hi_last_deadline : list Event :=
  hi_submitted
  ++ [EvAdvance 3000; EvTimer 1; EvAdvance 3000; EvTimer 2;
      EvAdvance 3000; EvTimer 3; EvAdvance 3000].

(** ** Further observations *)

(** The 32-bit string hash with multiplier 31, every step wrapped to an
    int32. *)
Definition javaHash (str : jsstring) : Z :=
  foldl (λ h c, ToInt32 (31 * h + Z.of_N c)) 0 str.

(** The code unit of the dash that separates instant and suffix in an
    id. *)
Definition dash : N := 45.

(** What a transport event says about the connection, if anything. *)
Definition setsConnectivity (e : Event) : option bool :=
  match e with
  | EvConnect | EvReconnect _ => Some true
  | EvDisconnect => Some false
  | _ => None
  end.

(** The connection status after a sequence of events: the word of the
    last transport event, or the status at the start. *)
Definition connectivity (b : bool) (evs : list Event) : bool :=
  foldl (λ b e, default b (setsConnectivity e)) b evs.

(** Every retry count the agent keeps (in the ledger, in an armed timer,
    in an awaited acknowledgment) is within [MAX_RETRIES]. *)
Definition retries_bounded (st : State) : Prop :=
  (∀ j p, pendingMessages st !! j = Some p → (retryCount p ≤ MAX_RETRIES)%nat)
  ∧ (∀ t tm, timers st !! t = Some tm → (tm_retry tm ≤ MAX_RETRIES)%nat)
  ∧ (∀ k w, acks st !! k = Some w → (aw_retry w ≤ MAX_RETRIES)%nat).

(** A ledger entry sits under the id of its message and records a timer
    handle that was handed out; if that timer is still armed, it is about
    the same message and the same attempt. Armed timers carry handles
    handed out and deadlines at most one [RETRY_TIMEOUT] ahead. *)
Definition ledger_consistent (st : State) : Prop :=
  (∀ j p, pendingMessages st !! j = Some p →
     msg_id (pm_msg p) = j
     ∧ ∃ t, timeout p = Some t
            ∧ (t < nextTimer st)%positive
            ∧ ∀ tm, timers st !! t = Some tm →
                tm_msg tm = pm_msg p ∧ tm_retry tm = retryCount p)
  ∧ (∀ t tm, timers st !! t = Some tm →
       (t < nextTimer st)%positive
       ∧ tm_deadline tm ≤ now st + RETRY_TIMEOUT).

(** The socket's acknowledgment table mirrors the transmissions: the
    next acknowledgment number is the number of transmissions so far,
    and the callback that waits under number [k] captured the message of
    the [k]-th transmission. *)
Definition acks_match (st : State) : Prop :=
  nextAck st = N.of_nat (length (sent st))
  ∧ ∀ k w, acks st !! k = Some w →
      ∃ e, sent st !! N.to_nat k = Some e ∧ em_msg e = aw_msg w.

(** A message written by the user [me] through the form, no later than
    [bound]: own sender id, a text that is not blank, no timestamp, an
    id made of an instant and a suffix. *)
Definition own_message (me : jsstring) (bound : Z) (m : Message) : Prop :=
  msg_senderId m = me
  ∧ trim (msg_text m) ≠ []
  ∧ msg_timestamp m = None
  ∧ ∃ t rnd, msg_id m = newId t rnd ∧ t ≤ bound.

(** Everything the agent sent or keeps is a message of its user. *)
Definition own_traffic (st : State) : Prop :=
  (∀ e, e ∈ sent st →
     own_message (MY_USER_ID st) (em_time e) (em_msg e)
     ∧ em_time e ≤ now st)
  ∧ (∀ j p, pendingMessages st !! j = Some p →
       own_message (MY_USER_ID st) (now st) (pm_msg p))
  ∧ (∀ t tm, timers st !! t = Some tm →
       own_message (MY_USER_ID st) (now st) (tm_msg tm))
  ∧ (∀ k w, acks st !! k = Some w →
       own_message (MY_USER_ID st) (now st) (aw_msg w)).

Definition agent_inv (st : State) : Prop :=
  retries_bounded st ∧ ledger_consistent st ∧ acks_match st
  ∧ own_traffic st.

(** Two sessions with the same identity, clock, ledger, timers,
    acknowledgment table and transmissions. *)
Definition same_agent (st st' : State) : Prop :=
  MY_USER_ID st' = MY_USER_ID st
  ∧ pendingMessages st' = pendingMessages st
  ∧ timers st' = timers st
  ∧ nextTimer st' = nextTimer st
  ∧ acks st' = acks st
  ∧ nextAck st' = nextAck st
  ∧ sent st' = sent st
  ∧ now st' = now st.

(** How many further transmissions a callback that captured the retry
    count [rc] can still cause: one of its own if [rc < MAX_RETRIES],
    and then those of the acknowledgment callback and of the timer that
    this transmission creates. *)
Definition weight (rc : nat) : nat := (2 ^ (MAX_RETRIES - rc) - 1)%nat.

(** The sum of [w] over the values of a finite map. *)
Definition total {K A} `{Countable K} (w : A → nat) (m : gmap K A) : nat :=
  map_fold (λ _ x acc, (w x + acc)%nat) 0%nat m.

(** The transmissions the callbacks alive in a session can still
    cause. *)
Definition potential (st : State) : nat :=
  (total (λ w, weight (aw_retry w)) (acks st)
   + total (λ tm, weight (tm_retry tm)) (timers st))%nat.

(** The number of form submissions in a sequence of events. *)
Fixpoint submissions (evs : list Event) : nat :=
  match evs with
  | [] => 0%nat
  | EvSubmit _ :: evs' => S (submissions evs')
  | _ :: evs' => submissions evs'
  end.

(** One timeout: the deadline passes and the timer [t] fires. *)
Definition timeout_of (t : positive) : list Event :=
  [EvAdvance 3000; EvTimer t].

(** The relay answers nothing for twelve seconds, and then refuses every
    transmission, the most recent first, as slowly as it can: each
    refusal is followed by the timeouts of the retransmission it
    causes. *)
Definition hi_worst_case : list Event :=
  hi_submitted
  ++ timeout_of 1 ++ timeout_of 2 ++ timeout_of 3 ++ timeout_of 4
  ++ [EvAck 2 nack] ++ timeout_of 5
  ++ [EvAck 1 nack] ++ timeout_of 6 ++ timeout_of 7
  ++ [EvAck 5 nack] ++ timeout_of 8
  ++ [EvAck 0 nack] ++ timeout_of 9 ++ timeout_of 10 ++ timeout_of 11
  ++ [EvAck 9 nack] ++ timeout_of 12
  ++ [EvAck 8 nack] ++ timeout_of 13 ++ timeout_of 14
  ++ [EvAck 12 nack] ++ timeout_of 15.

(** ** The age gate *)

Module Gate.

(** [isVerified] and [isUnderage], both [false] when the component
    mounts. *)
Record t := mk {
  isVerified : bool;
  isUnderage : bool
}.

Definition initial : t := mk false false.

(** What the component renders: the first two [return]s of the render
    body come before the chat. *)
Inductive Screen := AccessDenied | AgeModal | Chat.

Definition screen (g : t) : Screen :=
  if isUnderage g then AccessDenied
  else if negb (isVerified g) then AgeModal
  else Chat.

(** The two buttons; both exist on the modal only. *)
Inductive Click := ClickDeny | ClickConfirm.

(** [handleUnderage] and the inline [() => setIsVerified(true)]. *)
Definition handleUnderage (g : t) : t := mk (isVerified g) true.
Definition confirm (g : t) : t := mk true (isUnderage g).

(** A click, possible only where its button is rendered. *)
Definition click (c : Click) (g : t) : option t :=
  match screen g with
  | AgeModal =>
      Some match c with
           | ClickDeny => handleUnderage g
           | ClickConfirm => confirm g
           end
  | _ => None
  end.

Fixpoint clicks (cs : list Click) (g : t) : option t :=
  match cs with
  | [] => Some g
  | c :: cs' => g' ← click c g; clicks cs' g'
  end.

End Gate.

(** ** The first version of the component *)

(** The component as it was before acknowledgments, retries and the
    dedup set were added: it listens to [receive_message] and
    [user_count] only, and sends without asking for an answer. It runs
    on the same session record and leaves the later fields alone. *)
Module V1.

(** [socket.emit("send_message", newMessage)], with no callback. *)
Definition socket_emit (msgData : Message) : M unit :=
  modify (λ st, upd_sent (λ s, s ++ [mkEmission (now st) msgData]) st).

(** [sendMessage(e)]: the id is [Date.now().toString()]. *)
Definition sendMessage : M unit :=
  message ← get message;
  if truthy (trim (message : jsstring)) then
    me ← get MY_USER_ID;
    t ← get now;
    socket_emit (mkMessage message me (NumberToString t) None);;
    setMessage []
  else mret ().

(** The [receive_message] listener. *)
Definition handleReceiveMessage (data : Message) : M unit :=
  setMessages (λ prev, prev ++ [data]).

(** One event. The socket has no listener for the transport events and
    for [sync_messages]: they pass unnoticed. No timer is ever armed and
    no acknowledgment is ever awaited, so none can fire or arrive. *)
Definition step (e : Event) (st : State) : option State :=
  match e with
  | EvInput v => Some (exec (setMessage v) st)
  | EvSubmit _ => Some (exec sendMessage st)
  | EvAck _ _ | EvTimer _ => None
  | EvAdvance dt =>
      if 0 <=? dt then Some (upd_now (λ t, t + dt) st) else None
  | EvConnect | EvDisconnect | EvReconnectAttempt _ | EvReconnect _
  | EvSyncMessages _ => Some st
  | EvReceiveMessage d => Some (exec (handleReceiveMessage d) st)
  | EvUserCount n => Some (exec (handleUserCount n) st)
  end.

Fixpoint run (evs : list Event) (st : State) : option State :=
  match evs with
  | [] => Some st
  | e :: evs' => st' ← step e st; run evs' st'
  end.

(** The messages the [receive_message] events of a sequence carry. *)
Definition received (evs : list Event) : list Message :=
  evs ≫= λ e, match e with EvReceiveMessage d => [d] | _ => [] end.

End V1.

(** A run in which no event is about the message id [i]: none is an
    answer about it or a submission of it, and none of its timers
    fires. *)
Fixpoint undisturbed_run (i : jsstring) (evs : list Event) (st : State)
  : Prop :=
  match evs with
  | [] => True
  | e :: evs' =>
      silent i e st
      ∧ (∀ t, e = EvTimer t → timers_of i st !! t = None)
      ∧ match step e st with
        | Some st' => undisturbed_run i evs' st'
        | None => True
        end
  end.

(** ** Proof automation *)

(** Unfolding the monad and its primitives. *)

Ltac unfold_prims :=
  unfold setMessage, setMessages, setUserCount, setIsConnected,
    console_write, socket_emit, setTimeout, clearTimeout, ids_has, ids_add,
    pending_get, pending_has, pending_set, pending_delete, get, modify.

Ltac unfold_M :=
  unfold exec, mbind, M_bind, mret, M_ret; unfold_prims; simpl.

(** Evaluating a scenario; splitting a conjunction without touching
    its equations. *)
Ltac evaluate := vm_compute; reflexivity.
Ltac conjs := repeat match goal with |- _ ∧ _ => split end.

(** The powers of two of the Number bounds, as numerals for [lia]. *)
Ltac literals :=
  change (2 ^ 16) with 65536 in *;
  change (2 ^ 21) with 2097152 in *;
  change (2 ^ 31) with 2147483648 in *;
  change (2 ^ 32) with 4294967296 in *;
  change (2 ^ 33) with 8589934592 in *;
  change (2 ^ 52) with 4503599627370496 in *;
  change (2 ^ 53) with 9007199254740992 in *;
  change (2 ^ 54) with 18014398509481984 in *;
  change (2 ^ 86) with 77371252455336267181195264 in *.

(* ================================================================== *)
(** * Properties *)
(* ================================================================== *)

(** ** The colour helper *)

Lemma ToInt32_range x : - 2 ^ 31 ≤ ToInt32 x < 2 ^ 31.
Proof.
  unfold ToInt32. pose proof (Z.mod_pos_bound x (2 ^ 32) ltac:(lia)).
  destruct (Z.ltb_spec (x mod 2 ^ 32) (2 ^ 31)); lia.
Qed.

Lemma ToInt32_congr x y :
  x mod 2 ^ 32 = y mod 2 ^ 32 → ToInt32 x = ToInt32 y.
Proof. unfold ToInt32. by intros ->. Qed.

Lemma ToInt32_mod x : ToInt32 x mod 2 ^ 32 = x mod 2 ^ 32.
Proof.
  unfold ToInt32. destruct (Z.ltb_spec (x mod 2 ^ 32) (2 ^ 31)).
  - apply Z.mod_mod. lia.
  - rewrite <- (Z.mod_mod x (2 ^ 32)) at 2 by lia.
    replace (x mod 2 ^ 32 - 2 ^ 32) with (x mod 2 ^ 32 + (-1) * 2 ^ 32) by lia.
    apply Z.mod_add. lia.
Qed.

(** [hash << 5] is the 32-bit wrap of [32 * hash]. *)
Lemma shl_5 x : shl x 5 = ToInt32 (32 * x).
Proof.
  unfold shl. change (Z.land (5 mod 2 ^ 32) 31) with 5.
  rewrite Z.shiftl_mul_pow2 by lia. apply ToInt32_congr.
  change (2 ^ 5) with 32.
  rewrite Z.mul_mod, ToInt32_mod, <- Z.mul_mod by lia.
  f_equal. lia.
Qed.

Lemma hueOf_range str : 0 ≤ hueOf str < 360.
Proof.
  unfold hueOf, rem, Math_abs. apply Z.rem_bound_pos; lia.
Qed.

Lemma hashOf_snoc str c : hashOf (str ++ [c]) = hashStep (hashOf str) c.
Proof. unfold hashOf. by rewrite foldl_app. Qed.

(** Integers up to 2^53 in magnitude are Numbers: nothing is rounded. *)
Lemma roundD_exact x : Z.abs x ≤ 2 ^ 53 → roundD x = x.
Proof.
  intros Hx. unfold roundD.
  by destruct (Z.leb_spec (Z.abs x) (2 ^ 53)); [|lia].
Qed.

(** Past 2^53 only every second integer is a Number, past 2^54 every
    fourth: a tie goes to the even significand, and the loop body rounds
    once the hash is that large. *)
Example roundD_samples :
  roundD (2 ^ 53 + 1) = 2 ^ 53
  ∧ roundD (2 ^ 53 + 3) = 2 ^ 53 + 4
  ∧ roundD (- (2 ^ 53 + 1)) = - 2 ^ 53
  ∧ roundD 9007200802439165 = 9007200802439164
  ∧ roundD (2 ^ 54 + 6) = 2 ^ 54 + 8
  ∧ roundD (2 ^ 54 + 5) = 2 ^ 54 + 4
  ∧ hashStep (- 2 ^ 53) 1 = 2 ^ 53.
Proof. conjs; evaluate. Qed.

(** Rounding never crosses a Number: a value bounded by the Number [b]
    rounds to a value bounded by [b]. *)
Lemma roundD_le x b :
  representable b → Z.abs x ≤ b → Z.abs (roundD x) ≤ b.
Proof.
  intros (m & k & Hk & Hm & ->) Hx. unfold roundD.
  destruct (Z.leb_spec (Z.abs x) (2 ^ 53)) as [|Hbig]; [done|].
  assert (∀ v, 0 ≤ v → Z.abs (Z.sgn x * v) = v) as Habs.
  { intros v Hv. destruct (Z.sgn_spec x) as [[? ->]|[[? ->]|[? ->]]]; lia. }
  set (a := Z.abs x) in *.
  assert (0 < a) as Ha by (pose proof (Z.pow_pos_nonneg 2 53); lia).
  destruct (Z.log2_spec a Ha) as [Hlo _].
  assert (53 ≤ Z.log2 a) as Hl by (apply Z.log2_le_pow2; lia).
  set (e := Z.log2 a - 52) in *.
  replace (Z.log2 a) with (52 + e) in Hlo by lia.
  rewrite Z.pow_add_r in Hlo by lia.
  assert (0 < 2 ^ e) as Hp by (apply Z.pow_pos_nonneg; lia).
  assert (0 < 2 ^ (e - 1)) as Hh by (apply Z.pow_pos_nonneg; lia).
  assert (2 ^ e = 2 * 2 ^ (e - 1)) as Hdouble.
  { rewrite <- Z.pow_succ_r by lia. f_equal. lia. }
  pose proof (Z.div_mod a (2 ^ e) ltac:(lia)) as Hdm.
  pose proof (Z.mod_pos_bound a (2 ^ e) Hp) as Hr.
  assert (2 ^ 52 ≤ a / 2 ^ e) as Hq by (apply Z.div_le_lower_bound; lia).
  set (q := a / 2 ^ e) in *. set (r := a mod 2 ^ e) in *.
  assert (q * 2 ^ e ≤ m * 2 ^ k) as Hdown by lia.
  assert (0 < r → (q + 1) * 2 ^ e ≤ m * 2 ^ k) as Hup.
  { intros Hr0. destruct (Z.le_gt_cases e k) as [Hek|Hek].
    - replace k with ((k - e) + e) in * by lia.
      rewrite Z.pow_add_r in * by lia.
      assert (0 < 2 ^ (k - e)) by (apply Z.pow_pos_nonneg; lia).
      assert (q + 1 ≤ m * 2 ^ (k - e)) by nia. nia.
    - assert (2 ^ k ≤ 2 ^ (e - 1)) by (apply Z.pow_le_mono_r; lia).
      assert (0 < 2 ^ k) by (apply Z.pow_pos_nonneg; lia).
      literals.
      assert (m * 2 ^ k ≤ 9007199254740992 * 2 ^ (e - 1)) by nia.
      nia. }
  destruct (Z.ltb_spec r (2 ^ (e - 1))); [rewrite Habs; lia|].
  destruct (Z.ltb_spec (2 ^ (e - 1)) r); [rewrite Habs; lia|].
  destruct (Z.even q); rewrite Habs; lia.
Qed.

Lemma headroom_small j : j ≤ 2 ^ 53 → headroom j = j * 2 ^ 31.
Proof.
  intros Hj. unfold headroom. by destruct (Z.leb_spec j (2 ^ 53)); [|lia].
Qed.

Lemma headroom_step j :
  0 ≤ j < 2 ^ 54 → headroom j + 2 ^ 31 ≤ headroom (j + 1).
Proof.
  intros Hj. unfold headroom. literals.
  repeat match goal with |- context [?a <=? ?b] =>
    destruct (Z.leb_spec a b) end; lia.
Qed.

Lemma headroom_max j : 0 ≤ j ≤ 2 ^ 54 → headroom j ≤ 2 ^ 86.
Proof.
  intros Hj. unfold headroom. literals.
  repeat match goal with |- context [?a <=? ?b] =>
    destruct (Z.leb_spec a b) end; lia.
Qed.

Lemma headroom_representable j :
  0 ≤ j ≤ 2 ^ 54 → representable (headroom j).
Proof.
  intros Hj. unfold headroom, representable.
  destruct (Z.leb_spec j (2 ^ 53)); [exists j, 31; lia|].
  destruct (Z.leb_spec j (2 ^ 53 + 2 ^ 52)).
  - exists (j - 2 ^ 52), 32. literals. lia.
  - exists (j - 2 ^ 53), 33. literals. lia.
Qed.

(** One turn of the loop moves the hash, and the difference computed on
    the way, at most two rungs up the ladder. *)
Lemma hashStep_headroom h c j :
  0 ≤ j → j + 2 ≤ 2 ^ 54 → (c < 65536)%N →
  Z.abs h ≤ headroom j →
  Z.abs (sub (shl h 5) h) ≤ headroom (j + 1)
  ∧ Z.abs (hashStep h c) ≤ headroom (j + 2).
Proof.
  intros Hj Hj2 Hc Hh.
  pose proof (ToInt32_range (32 * h)) as Hs. rewrite <- shl_5 in Hs.
  pose proof (headroom_step j ltac:(lia)) as H1.
  pose proof (headroom_step (j + 1) ltac:(lia)) as H2.
  replace (j + 1 + 1) with (j + 2) in H2 by lia.
  assert (Z.abs (sub (shl h 5) h) ≤ headroom (j + 1)) as Hd.
  { apply roundD_le; [apply headroom_representable; lia|]. lia. }
  split; [done|]. unfold hashStep, add.
  apply roundD_le; [apply headroom_representable; lia|].
  literals. lia.
Qed.

(** The hash never leaves the finite Numbers: on a string of [n] code
    units, [n] below 2^53 (no string is longer), it is at most the rung
    [2 * n] of the ladder, which is at most 2^86. *)
Lemma hashOf_headroom str :
  wf_string str → Z.of_nat (length str) < 2 ^ 53 →
  Z.abs (hashOf str) ≤ headroom (2 * Z.of_nat (length str)).
Proof.
  induction str as [|c str IH] using rev_ind; intros Hwf Hlen.
  - done.
  - apply Forall_app in Hwf as [Hwf Hc]. apply Forall_inv in Hc.
    rewrite length_app in *. simpl in *.
    specialize (IH Hwf ltac:(lia)). rewrite hashOf_snoc.
    replace (2 * Z.of_nat (length str + 1))
      with (2 * Z.of_nat (length str) + 2) by lia.
    apply hashStep_headroom; [lia|literals; lia|done|done].
Qed.

(** Up to 2^52 code units the magnitude of the hash grows by at most
    2^32 per unit, so it is at most 2^53 for every string of at most
    2^21 units. *)
Lemma hashOf_magnitude str :
  wf_string str → Z.of_nat (length str) ≤ 2 ^ 52 →
  Z.abs (hashOf str) ≤ Z.of_nat (length str) * 2 ^ 32.
Proof.
  intros Hwf Hlen. pose proof (hashOf_headroom str Hwf) as Hm.
  rewrite headroom_small in Hm; literals; lia.
Qed.

(** While the hash is small enough, neither operator of the loop body
    rounds. *)
Lemma hashStep_exact h c :
  Z.abs h + 2 ^ 32 ≤ 2 ^ 53 → (c < 65536)%N →
  hashStep h c = Z.of_N c + (shl h 5 - h).
Proof.
  intros Hh Hc. unfold hashStep, add, sub.
  pose proof (ToInt32_range (32 * h)) as Hs. rewrite <- shl_5 in Hs.
  literals. rewrite (roundD_exact (shl h 5 - h)) by (literals; lia).
  apply roundD_exact. literals. lia.
Qed.

(** The text printed for a hue is its decimal numeral. *)
Lemma NumberToString_numeral h :
  0 ≤ h < 360 → isNumeralOf (NumberToString h) h = true.
Proof.
  intros Hh.
  assert (forallb (λ n, isNumeralOf (NumberToString (Z.of_nat n)) (Z.of_nat n))
            (seq 0 360) = true) as Hall by (vm_compute; reflexivity).
  rewrite forallb_forall in Hall.
  specialize (Hall (Z.to_nat h)). rewrite Z2Nat.id in Hall by lia.
  apply Hall, in_seq. lia.
Qed.

(** C10. [stringToNeonColor] is a function of its argument alone (it
    reads and writes no part of the session, so two calls on the same
    string give the same text). For every string value, that is code
    units below 2^16 and a length below 2^53, the result is the text
    [hsl(ds, 100%, 60%)] where [ds] is the decimal numeral (digits only,
    no leading zero) of the hue [h], an integer with [0 <= h < 360]; the
    hue is the absolute value, modulo 360, of the hash folded over the
    code units by [hash := c + (int32 (32 * hash) - hash)], the sum and
    the difference being rounded as Number arithmetic rounds them; and
    the hash is at most 2^86 in magnitude after every turn of the loop,
    so it is always a finite Number. *)
Theorem stringToNeonColor_hsl (str : jsstring) :
  wf_string str →
  Z.of_nat (length str) < 2 ^ 53 →
  ∃ ds : jsstring,
    stringToNeonColor str = of_ascii "hsl(" ++ ds ++ of_ascii ", 100%, 60%)"
    ∧ isNumeralOf ds (hueOf str) = true
    ∧ 0 ≤ hueOf str < 360
    ∧ hueOf str
      = Z.abs (foldl (λ h c, roundD (Z.of_N c + roundD (ToInt32 (32 * h) - h)))
                 0 str) mod 360
    ∧ ∀ pre, pre `prefix_of` str → Z.abs (hashOf pre) ≤ 2 ^ 86.
Proof.
  intros Hwf Hlen. exists (NumberToString (hueOf str)).
  pose proof (hueOf_range str) as Hr.
  split; [done|]. split; [by apply NumberToString_numeral|]. split; [done|].
  split.
  - clear. unfold hueOf, rem, Math_abs. rewrite Z.rem_mod_nonneg by lia.
    do 2 f_equal. unfold hashOf. generalize 0.
    induction str as [|c str IH]; intros h; simpl; [done|].
    rewrite IH. unfold hashStep, add, sub. by rewrite shl_5.
  - intros pre [suf ->]. apply Forall_app in Hwf as [Hwf _].
    rewrite length_app in Hlen.
    etrans; [apply hashOf_headroom; [done|lia]|].
    apply headroom_max. literals. lia.
Qed.

Lemma stringToNeonColor_hsl_witness :
  stringToNeonColor (of_ascii "abc") = of_ascii "hsl(234, 100%, 60%)"
  ∧ ∃ ds : jsstring,
      stringToNeonColor (of_ascii "abc")
      = of_ascii "hsl(" ++ ds ++ of_ascii ", 100%, 60%)"
      ∧ isNumeralOf ds (hueOf (of_ascii "abc")) = true
      ∧ 0 ≤ hueOf (of_ascii "abc") < 360.
Proof.
  split; [by vm_compute|].
  destruct (stringToNeonColor_hsl (of_ascii "abc")) as (ds & H1 & H2 & H3 & _);
    [apply (bool_decide_unpack _); by vm_compute|by vm_compute|].
  exists ds. split; [exact H1|]. split; [exact H2|exact H3].
Defined.

(** ** The dedup filter *)

Lemma admitBatch_seen seen l :
  (admitBatch seen l).2 = list_to_set (msg_id <$> l) ∪ seen.
Proof.
  revert seen. induction l as [|m l IH]; intros seen; simpl.
  - set_solver.
  - unfold admitOne. case_bool_decide as Hin;
      [pose proof (IH seen) | pose proof (IH ({[msg_id m]} ∪ seen))];
      destruct (admitBatch _ l); simpl in *; subst; set_solver.
Qed.

Lemma admitBatch_sublist seen l : sublist (admitBatch seen l).1 l.
Proof.
  revert seen. induction l as [|m l IH]; intros seen; simpl; [done|].
  unfold admitOne. case_bool_decide;
    [pose proof (IH seen) | pose proof (IH ({[msg_id m]} ∪ seen))];
    destruct (admitBatch _ l); simpl in *; by constructor.
Qed.

(** Each message is judged on its own: it is admitted exactly when its
    id is neither recorded already nor carried by an earlier message of
    the batch. *)
Lemma admitBatch_snoc seen l m :
  (admitBatch seen (l ++ [m])).1
  = (admitBatch seen l).1
    ++ (if bool_decide (msg_id m ∈ seen ∨ msg_id m ∈ msg_id <$> l)
        then [] else [m]).
Proof.
  revert seen. induction l as [|a l IH]; intros seen.
  - simpl. unfold admitOne.
    rewrite (bool_decide_ext (_ ∨ _) (msg_id m ∈ seen)) by set_solver.
    by case_bool_decide.
  - rewrite fmap_cons. cbn [app admitBatch]. unfold admitOne.
    case_bool_decide as Ha.
    + specialize (IH seen). destruct (admitBatch seen (l ++ [m])).
      destruct (admitBatch seen l). simpl in *. rewrite IH.
      f_equal. apply (f_equal (λ b : bool, if b then [] else [m])).
      apply bool_decide_ext. rewrite elem_of_cons.
      split; [tauto|]. intros [?|[Heq|?]]; [tauto| |tauto].
      left. by rewrite Heq.
    + specialize (IH ({[msg_id a]} ∪ seen)).
      destruct (admitBatch _ (l ++ [m])). destruct (admitBatch _ l).
      simpl in *. rewrite IH. do 2 f_equal.
      apply (f_equal (λ b : bool, if b then [] else [m])).
      apply bool_decide_ext.
      rewrite elem_of_cons, elem_of_union, elem_of_singleton. tauto.
Qed.

(** Of the entries with a given id, the filter lets through the first
    one, and only if the id is not recorded yet. *)
Lemma with_id_admitBatch i seen l :
  with_id i (admitBatch seen l).1
  = if bool_decide (i ∈ seen) then [] else take 1 (with_id i l).
Proof.
  unfold with_id. revert seen.
  induction l as [|m l IH]; intros seen; simpl.
  - by case_bool_decide.
  - unfold admitOne. case_bool_decide as Hm.
    + specialize (IH seen). destruct (admitBatch seen l). simpl in *.
      rewrite IH. case_bool_decide as Hi; [done|].
      rewrite filter_cons_False; [done|]. set_solver.
    + specialize (IH ({[msg_id m]} ∪ seen)).
      destruct (admitBatch _ l). simpl in *.
      destruct (decide (msg_id m = i)) as [<-|Hne].
      * rewrite !filter_cons_True by done. rewrite IH.
        rewrite bool_decide_true by set_solver.
        by rewrite bool_decide_false.
      * rewrite !filter_cons_False by done. rewrite IH.
        repeat case_bool_decide; set_solver.
Qed.

Lemma upd_receivedMessageIds_const st :
  upd_receivedMessageIds (λ _, receivedMessageIds st) st = st.
Proof. by destruct st. Qed.

(** The filter of [handleSyncMessages] computes what [admitOne], applied
    message by message, computes. *)
Lemma filterM_syncFilter l st :
  filterM syncFilter l st
  = ((admitBatch (receivedMessageIds st) l).1,
     upd_receivedMessageIds (λ _, (admitBatch (receivedMessageIds st) l).2) st).
Proof.
  revert st. induction l as [|m l IH]; intros st; simpl.
  - unfold mret, M_ret. by rewrite upd_receivedMessageIds_const.
  - unfold syncFilter, admitOne. unfold_M.
    case_bool_decide as Hm; simpl; rewrite IH; simpl.
    + by destruct (admitBatch (receivedMessageIds st) l).
    + destruct (admitBatch _ l). by destruct st.
Qed.

Lemma handleSyncMessages_exec l st :
  exec (handleSyncMessages l) st
  = upd_messages (λ prev, prev ++ (admitBatch (receivedMessageIds st) l).1)
      (upd_receivedMessageIds (λ _, (admitBatch (receivedMessageIds st) l).2)
         (upd_console (λ c, c ++ [LogSynced (length l)]) st)).
Proof.
  unfold handleSyncMessages. unfold_M. rewrite filterM_syncFilter. simpl.
  destruct (admitBatch (receivedMessageIds st) l) as [[|a adm] seen'];
    simpl; [|done].
  destruct st; unfold upd_messages; simpl. by rewrite app_nil_r.
Qed.

Lemma handleReceiveMessage_exec d st :
  exec (handleReceiveMessage d) st
  = if bool_decide (msg_id d ∈ receivedMessageIds st)
    then upd_console (λ c, c ++ [LogDuplicate (msg_id d)]) st
    else upd_console (λ c, c ++ [LogNewMessage (msg_id d)])
           (upd_messages (λ prev, prev ++ [d])
              (upd_receivedMessageIds (λ s, {[msg_id d]} ∪ s) st)).
Proof. unfold handleReceiveMessage. unfold_M. by case_bool_decide. Qed.

(** *** The handlers as state transformers *)

Lemma run_unit (c : M unit) st : c st = ((), exec c st).
Proof. unfold exec. by destruct (c st) as [[] ?]. Qed.

Lemma sendMessageWithRetry_exec m rc st :
  exec (sendMessageWithRetry m rc) st
  = upd_pendingMessages <[msg_id m := mkPending m rc (Some (nextTimer st))]>
      (upd_nextTimer Pos.succ
         (upd_timers <[nextTimer st := mkTimer m rc (now st + RETRY_TIMEOUT)]>
            (upd_sent (λ s, s ++ [mkEmission (now st) m])
               (upd_nextAck N.succ
                  (upd_acks <[nextAck st := mkAckWait m rc]>
                     (upd_console
                        (λ c, c ++ [LogSending (rc + 1) (msg_id m)]) st)))))).
Proof. done. Qed.

Lemma handleMessageFailure_exec m rc st :
  exec (handleMessageFailure m rc) st
  = if (rc <? MAX_RETRIES)%nat
    then exec (sendMessageWithRetry m (rc + 1))
           (upd_console (λ c, c ++ [LogRetrying (msg_id m) (rc + 1)])
              (cancelRecorded (msg_id m) st))
    else upd_pendingMessages (delete (msg_id m))
           (upd_console (λ c, c ++ [ErrFailed (msg_id m)])
              (cancelRecorded (msg_id m) st)).
Proof.
  unfold handleMessageFailure, cancelRecorded. unfold_M.
  destruct (option_bind _ _ _ _); destruct (rc <? MAX_RETRIES)%nat; done.
Qed.

Lemma ackCallback_exec m rc r st :
  exec (ackCallback m rc r) st
  = if ack_success r
    then upd_console (λ c, c ++ [LogConfirmed (msg_id m)])
           (upd_pendingMessages (delete (msg_id m))
              (upd_console (λ c, c ++ [LogAckReceived r]) st))
    else exec (handleMessageFailure m rc)
           (upd_console (λ c, c ++ [ErrServer (ack_error r)])
              (upd_console (λ c, c ++ [LogAckReceived r]) st)).
Proof.
  unfold ackCallback. unfold_M. destruct (ack_success r); [done|].
  by rewrite run_unit.
Qed.

Lemma timerCallback_exec m rc st :
  exec (timerCallback m rc) st
  = if bool_decide (is_Some (pendingMessages st !! msg_id m))
    then exec (handleMessageFailure m rc)
           (upd_console (λ c, c ++ [WarnNoAck (msg_id m)]) st)
    else st.
Proof.
  unfold timerCallback. unfold_M. case_bool_decide; [|done].
  by rewrite run_unit.
Qed.

Lemma sendMessage_exec rnd st :
  exec (sendMessage rnd) st
  = if truthy (trim (message st))
    then upd_message (λ _, [])
           (exec (sendMessageWithRetry
                    (mkMessage (message st) (MY_USER_ID st)
                       (newId (now st) rnd) None) 0) st)
    else st.
Proof. unfold sendMessage. unfold_M. by destruct (truthy _). Qed.

(** The delivery agent's own handlers never write the timeline nor the
    dedup set. *)
Lemma cancelRecorded_timeline i st :
  messages (cancelRecorded i st) = messages st
  ∧ receivedMessageIds (cancelRecorded i st) = receivedMessageIds st.
Proof. unfold cancelRecorded. by destruct (_ ≫= _). Qed.

Lemma handleMessageFailure_timeline m rc st :
  messages (exec (handleMessageFailure m rc) st) = messages st
  ∧ receivedMessageIds (exec (handleMessageFailure m rc) st)
    = receivedMessageIds st.
Proof.
  rewrite handleMessageFailure_exec.
  destruct (rc <? MAX_RETRIES)%nat; simpl;
    apply cancelRecorded_timeline.
Qed.

(** *** Inverting a step *)

Lemma step_ack_inv k r st st' :
  step (EvAck k r) st = Some st' →
  ∃ w, acks st !! k = Some w
       ∧ st' = exec (ackCallback (aw_msg w) (aw_retry w) r)
                 (upd_acks (delete k) st).
Proof.
  simpl. destruct (acks st !! k) as [w|]; simpl; [|done].
  intros [= <-]. by exists w.
Qed.

Lemma step_timer_inv t st st' :
  step (EvTimer t) st = Some st' →
  ∃ tm, timers st !! t = Some tm
        ∧ tm_deadline tm ≤ now st
        ∧ st' = exec (timerCallback (tm_msg tm) (tm_retry tm))
                  (upd_timers (delete t) st).
Proof.
  simpl. destruct (timers st !! t) as [tm|]; simpl; [|done].
  destruct (Z.leb_spec (tm_deadline tm) (now st)); [|done].
  intros [= <-]. by exists tm.
Qed.

Lemma step_advance_inv dt st st' :
  step (EvAdvance dt) st = Some st' →
  0 ≤ dt ∧ st' = upd_now (λ t, t + dt) st.
Proof.
  simpl. destruct (Z.leb_spec 0 dt); [|done]. by intros [= <-].
Qed.

(** Every event extends the timeline by what the dedup filter admits of
    the messages it delivers, and by nothing else. *)
Lemma step_timeline e st st' :
  step e st = Some st' →
  messages st'
  = messages st ++ (admitBatch (receivedMessageIds st) (delivered e)).1
  ∧ receivedMessageIds st'
    = (admitBatch (receivedMessageIds st) (delivered e)).2.
Proof.
  destruct e; intros Hstep;
    [| |apply step_ack_inv in Hstep as (w & _ & ->)
       |apply step_timer_inv in Hstep as (tm & _ & _ & ->)
       |apply step_advance_inv in Hstep as [_ ->]| ..];
    simpl in *; simplify_eq; rewrite ?app_nil_r; try done.
  - (* submit *)
    rewrite sendMessage_exec. by destruct (truthy _).
  - (* acknowledgment *)
    rewrite ackCallback_exec. destruct (ack_success _); [done|].
    apply (handleMessageFailure_timeline _ _
             (upd_console _ (upd_console _ (upd_acks _ st)))).
  - (* timer *)
    rewrite timerCallback_exec. case_bool_decide; [|done].
    apply (handleMessageFailure_timeline _ _
             (upd_console _ (upd_timers _ st))).
  - (* sync_messages *)
    by rewrite handleSyncMessages_exec.
  - (* receive_message *)
    rewrite handleReceiveMessage_exec. unfold admitOne.
    destruct (bool_decide _); simpl; by rewrite ?app_nil_r.
Qed.

Lemma admitBatch_app seen l1 l2 :
  admitBatch seen (l1 ++ l2)
  = ((admitBatch seen l1).1 ++ (admitBatch (admitBatch seen l1).2 l2).1,
     (admitBatch (admitBatch seen l1).2 l2).2).
Proof.
  revert seen. induction l1 as [|a l1 IH]; intros seen; simpl.
  - by destruct (admitBatch seen l2).
  - destruct (admitOne (msg_id a) seen) as [ok seen1]. rewrite IH.
    destruct (admitBatch seen1 l1) as [r1 s1]. simpl.
    by destruct ok.
Qed.

Lemma admitBatch_ids seen l i :
  i ∈ msg_id <$> (admitBatch seen l).1 ↔ i ∈ msg_id <$> l ∧ i ∉ seen.
Proof.
  revert seen. induction l as [|m l IH]; intros seen.
  - simpl. set_solver.
  - rewrite fmap_cons. cbn [admitBatch]. unfold admitOne.
    case_bool_decide as Hm.
    + specialize (IH seen). destruct (admitBatch seen l) as [r s'].
      cbn [fst] in *. rewrite IH, elem_of_cons.
      split; [tauto|]. intros [[->|?] ?]; [done|tauto].
    + specialize (IH ({[msg_id m]} ∪ seen)).
      destruct (admitBatch _ l) as [r s']. cbn [fst] in *.
      rewrite fmap_cons, !elem_of_cons, IH, elem_of_union, elem_of_singleton.
      destruct (decide (i = msg_id m)) as [->|Hne]; tauto.
Qed.

Lemma admitBatch_NoDup seen l : NoDup (msg_id <$> (admitBatch seen l).1).
Proof.
  revert seen. induction l as [|m l IH]; intros seen.
  - constructor.
  - cbn [admitBatch]. unfold admitOne. case_bool_decide as Hm.
    + specialize (IH seen). by destruct (admitBatch seen l).
    + pose proof (IH ({[msg_id m]} ∪ seen)) as Hnd.
      pose proof (admitBatch_ids ({[msg_id m]} ∪ seen) l (msg_id m)) as Hids.
      destruct (admitBatch _ l) as [r s']. cbn [fst] in *.
      rewrite fmap_cons. constructor; [|done].
      rewrite Hids, elem_of_union, elem_of_singleton. tauto.
Qed.

Lemma with_id_app i l1 l2 : with_id i (l1 ++ l2) = with_id i l1 ++ with_id i l2.
Proof. apply filter_app. Qed.

Lemma with_id_nonempty i l : i ∈ msg_id <$> l ↔ with_id i l ≠ [].
Proof.
  unfold with_id. induction l as [|m l IH]; simpl.
  - set_solver.
  - rewrite elem_of_cons, IH. destruct (decide (msg_id m = i)) as [Heq|Hne].
    + rewrite filter_cons_True by done. naive_solver.
    + rewrite filter_cons_False by done. naive_solver.
Qed.

Lemma with_id_NoDup i l :
  NoDup (msg_id <$> l) → take 1 (with_id i l) = with_id i l.
Proof.
  unfold with_id. induction l as [|m l IH]; simpl; [done|].
  intros [Hm Hnd]%NoDup_cons. destruct (decide (msg_id m = i)) as [Heq|Hne].
  - rewrite filter_cons_True by done. simpl. f_equal.
    destruct (filter _ l) as [|m' f] eqn:E; [done|].
    assert (m' ∈ filter (λ m, msg_id m = i) l) as Hin by (rewrite E; left).
    apply list_elem_of_filter in Hin as [Hid Hl]. destruct Hm.
    rewrite Heq, <- Hid. by apply list_elem_of_fmap_2.
  - rewrite filter_cons_False by done. by apply IH.
Qed.

(** The agreement between dedup set and timeline holds when the
    component mounts and survives every event. *)
Lemma initial_dedup_inv me t0 c : dedup_inv (initial me t0 c).
Proof. split; simpl; [constructor|set_solver]. Qed.

Lemma step_dedup_inv e st st' :
  step e st = Some st' → dedup_inv st → dedup_inv st'.
Proof.
  intros [Hm Hs]%step_timeline [Hnd Hagree]. split.
  - rewrite Hm, fmap_app. apply NoDup_app. split; [done|].
    split; [|apply admitBatch_NoDup].
    intros i Hi [_ Hnew]%admitBatch_ids. by apply Hnew, Hagree.
  - intros i. rewrite Hs, Hm, admitBatch_seen, fmap_app, elem_of_app.
    rewrite admitBatch_ids, elem_of_union, elem_of_list_to_set, Hagree.
    destruct (decide (i ∈ msg_id <$> messages st)); [tauto|].
    rewrite <- Hagree in *. tauto.
Qed.

Lemma run_dedup_inv evs st st' :
  run evs st = Some st' → dedup_inv st → dedup_inv st'.
Proof.
  revert st. induction evs as [|e evs IH]; simpl; intros st Hrun Hinv.
  - by simplify_eq.
  - destruct (step e st) as [st1|] eqn:Hstep; simpl in *; [|done].
    eauto using step_dedup_inv.
Qed.

Lemma take_1_app_take {A} (d r : list A) :
  take 1 (take 1 d ++ r) = take 1 (d ++ r).
Proof. by destruct d. Qed.

Lemma take_1_app_nonempty {A} (x r : list A) :
  x ≠ [] → take 1 (x ++ r) = take 1 x.
Proof. by destruct x. Qed.

Lemma run_with_id evs st0 st i :
  dedup_inv st0 →
  run evs st0 = Some st →
  with_id i (messages st)
  = take 1 (with_id i (messages st0 ++ deliveries evs)).
Proof.
  revert st0. induction evs as [|e evs IH]; simpl; intros st0 Hinv Hrun.
  - simplify_eq. rewrite app_nil_r.
    symmetry. apply with_id_NoDup, Hinv.
  - destruct (step e st0) as [st1|] eqn:Hstep; simpl in *; [|done].
    rewrite (IH st1) by eauto using step_dedup_inv.
    apply step_timeline in Hstep as [-> _].
    unfold deliveries. rewrite !with_id_app, with_id_admitBatch.
    destruct Hinv as [_ Hagree]. case_bool_decide as Hseen.
    + apply Hagree, with_id_nonempty in Hseen.
      rewrite <- !app_assoc. by rewrite !take_1_app_nonempty.
    + assert (with_id i (messages st0) = []) as ->.
      { destruct (with_id i (messages st0)) eqn:E; [done|].
        destruct Hseen. apply Hagree, with_id_nonempty. by rewrite E. }
      simpl. apply take_1_app_take.
Qed.

(** C1. Whatever the sequence of events (live [receive_message]
    deliveries and [sync_messages] batches in any interleaving, among any
    other events), an id that was delivered at least once has exactly one
    entry in the timeline: the first message delivered with that id. Any
    later delivery of the id, live or in a batch, leaves the timeline as
    it is. *)
Theorem timeline_one_copy (evs : list Event) (st0 st : State) (i : jsstring) :
  dedup_inv st0 →
  run evs st0 = Some st →
  i ∈ msg_id <$> (messages st0 ++ deliveries evs) →
  with_id i (messages st)
  = take 1 (with_id i (messages st0 ++ deliveries evs))
  ∧ length (with_id i (messages st)) = 1%nat
  ∧ ∀ d, msg_id d = i →
      messages (exec (handleReceiveMessage d) st) = messages st
      ∧ messages (exec (handleSyncMessages [d]) st) = messages st.
Proof.
  intros Hinv Hrun Hin.
  pose proof (run_with_id _ _ _ i Hinv Hrun) as Hone.
  apply with_id_nonempty in Hin.
  assert (length (with_id i (messages st)) = 1%nat) as Hlen.
  { rewrite Hone. by destruct (with_id i (messages st0 ++ deliveries evs)). }
  split; [done|]. split; [done|]. intros d <-.
  assert (msg_id d ∈ receivedMessageIds st) as Hseen.
  { apply (run_dedup_inv _ _ _ Hrun Hinv), with_id_nonempty.
    by destruct (with_id (msg_id d) (messages st)). }
  split.
  - rewrite handleReceiveMessage_exec. by rewrite bool_decide_true.
  - rewrite handleSyncMessages_exec. simpl. unfold admitOne.
    rewrite bool_decide_true by done. simpl. apply app_nil_r.
Qed.

Lemma timeline_one_copy_witness :
  let x := mkMessage (of_ascii "hello") (of_ascii "bob") (of_ascii "x") None in
  let y := mkMessage (of_ascii "again") (of_ascii "eve") (of_ascii "x") None in
  let evs := [EvReceiveMessage x; EvSyncMessages [y; x]; EvReceiveMessage y] in
  ∃ st, run evs (initial (of_ascii "me") 0 true) = Some st
        ∧ with_id (of_ascii "x") (messages st) = [x].
Proof.
  intros x y evs.
  destruct (run evs (initial (of_ascii "me") 0 true)) as [st|] eqn:Hrun;
    [|by vm_compute in Hrun].
  exists st. split; [done|].
  destruct (timeline_one_copy evs _ st (of_ascii "x")
              (initial_dedup_inv _ _ _) Hrun) as (-> & _).
  - vm_compute. left.
  - by vm_compute.
Defined.

(** C7. A [sync_messages] batch is put through the shared dedup set one
    message at a time: the filter of the handler computes what [admitOne]
    computes message by message, the messages it lets through are
    appended after the existing timeline, in batch order, and a message
    of the batch is let through exactly when its id is neither recorded
    before the batch nor carried by an earlier message of the batch.
    Every id of the batch is recorded afterwards. *)
Theorem sync_batch_appends_admitted (batch : list Message) (st : State) :
  let seen := receivedMessageIds st in
  let st' := exec (handleSyncMessages batch) st in
  (filterM syncFilter batch st).1 = (admitBatch seen batch).1
  ∧ messages st' = messages st ++ (admitBatch seen batch).1
  ∧ sublist (admitBatch seen batch).1 batch
  ∧ receivedMessageIds st' = list_to_set (msg_id <$> batch) ∪ seen
  ∧ ∀ l1 m l2, batch = l1 ++ m :: l2 →
      (admitBatch seen batch).1
      = (admitBatch seen l1).1
        ++ (if bool_decide (msg_id m ∈ seen ∨ msg_id m ∈ msg_id <$> l1)
            then [] else [m])
        ++ (admitBatch (list_to_set (msg_id <$> l1 ++ [m]) ∪ seen) l2).1.
Proof.
  intros seen st'. subst st'. rewrite handleSyncMessages_exec.
  rewrite filterM_syncFilter. simpl. fold seen.
  split; [done|]. split; [done|]. split; [apply admitBatch_sublist|].
  split; [apply admitBatch_seen|].
  intros l1 m l2 ->.
  rewrite (cons_middle m l1 l2), app_assoc, admitBatch_app. simpl.
  by rewrite admitBatch_snoc, admitBatch_seen, <- app_assoc.
Qed.

Lemma sync_batch_appends_admitted_witness :
  let a := mkMessage (of_ascii "one") (of_ascii "bob") (of_ascii "a") None in
  let b := mkMessage (of_ascii "two") (of_ascii "eve") (of_ascii "b") None in
  let c := mkMessage (of_ascii "three") (of_ascii "bob") (of_ascii "c") None in
  let st := exec (handleReceiveMessage b) (initial (of_ascii "me") 0 true) in
  messages (exec (handleSyncMessages [a; b; a; c]) st) = [b; a; c].
Proof.
  intros a b c st.
  destruct (sync_batch_appends_admitted [a; b; a; c] st)
    as (_ & -> & _ & _ & Hsplit).
  rewrite (Hsplit [a; b] a [c] eq_refl). by vm_compute.
Defined.

(** C9. Submitting the form leaves the timeline and the dedup set as
    they are. The timeline only ever grows by what the dedup filter
    admits of the messages a [receive_message] or [sync_messages] event
    delivers: whatever the run, a message shown in the timeline was shown
    at the start or has been delivered by the relay. *)
Theorem submit_leaves_timeline :
  (∀ rnd st,
     messages (exec (sendMessage rnd) st) = messages st
     ∧ receivedMessageIds (exec (sendMessage rnd) st) = receivedMessageIds st)
  ∧ (∀ e st st', step e st = Some st' →
       messages st'
       = messages st
         ++ (admitBatch (receivedMessageIds st) (delivered e)).1)
  ∧ (∀ evs st0 st m, run evs st0 = Some st →
       m ∈ messages st → m ∈ messages st0 ∨ m ∈ deliveries evs).
Proof.
  split; [|split].
  - intros rnd st.
    destruct (step_timeline (EvSubmit rnd) st _ eq_refl) as [Hm Hs].
    simpl in *. by rewrite app_nil_r in Hm.
  - intros e st st' Hstep. by apply step_timeline in Hstep as [? _].
  - intros evs. induction evs as [|e evs IH]; simpl; intros st0 st m Hrun Hin.
    + simplify_eq. by left.
    + destruct (step e st0) as [st1|] eqn:Hstep; simpl in *; [|done].
      destruct (IH _ _ _ Hrun Hin) as [H1|Hev].
      * apply step_timeline in Hstep as [Hm _]. rewrite Hm in H1.
        apply elem_of_app in H1 as [?|Hadm]; [by left|right].
        apply elem_of_app. left.
        eapply elem_of_sublist; [apply Hadm|]. apply admitBatch_sublist.
      * right. apply elem_of_app. by right.
Qed.

Lemma submit_leaves_timeline_witness :
  let me := of_ascii "me" in
  let typed := exec (setMessage (of_ascii "hi")) (initial me 7 true) in
  let st := exec (sendMessage (of_ascii "r4nd")) typed in
  let echo := mkMessage (of_ascii "hi") me (newId 7 (of_ascii "r4nd")) None in
  messages st = []
  ∧ messages (exec (handleReceiveMessage echo) st) = [echo].
Proof.
  intros me typed st echo.
  destruct submit_leaves_timeline as (Hsubmit & Hstep & _). split.
  - unfold st. rewrite (proj1 (Hsubmit _ _)). reflexivity.
  - rewrite (Hstep (EvReceiveMessage echo) st _ eq_refl). by vm_compute.
Defined.

(** ** The send form *)

(** C8. When the trimmed input is empty, submitting the form changes
    nothing at all: nothing is emitted, no ledger entry and no timer are
    created, the input keeps its text. When the trimmed input is not
    empty, the message is emitted once, with the input as its text,
    entered in the ledger with a timer armed, and the input is cleared. *)
Theorem sendMessage_blank_is_noop (rnd : jsstring) (st : State) :
  (trim (message st) = [] → exec (sendMessage rnd) st = st)
  ∧ (trim (message st) ≠ [] →
       let st' := exec (sendMessage rnd) st in
       let m := mkMessage (message st) (MY_USER_ID st)
                  (newId (now st) rnd) None in
       sent st' = sent st ++ [mkEmission (now st) m]
       ∧ pendingMessages st'
         = <[msg_id m := mkPending m 0 (Some (nextTimer st))]>
             (pendingMessages st)
       ∧ timers st'
         = <[nextTimer st := mkTimer m 0 (now st + RETRY_TIMEOUT)]>
             (timers st)
       ∧ message st' = []).
Proof.
  rewrite sendMessage_exec. split.
  - by intros ->.
  - intros Hne. by destruct (trim (message st)).
Qed.

Lemma sendMessage_blank_is_noop_witness :
  let blank := exec (setMessage (of_ascii "   ")) (initial (of_ascii "me") 5 true) in
  let typed := exec (setMessage (of_ascii " hi ")) (initial (of_ascii "me") 5 true) in
  exec (sendMessage (of_ascii "r")) blank = blank
  ∧ length (sent (exec (sendMessage (of_ascii "r")) typed)) = 1%nat.
Proof.
  intros blank typed. split.
  - apply (sendMessage_blank_is_noop (of_ascii "r") blank). reflexivity.
  - destruct (sendMessage_blank_is_noop (of_ascii "r") typed) as [_ H].
    destruct H as (-> & _); [by vm_compute|reflexivity].
Defined.

(** ** Connection events *)

(** C4 as stated fails. A message is pending when the transport drops.
    On [connect] (and
    likewise on [reconnect]) the flag flips and nothing leaves the
    client: the pending entry is not resent and no resynchronisation is
    requested. *)
Lemma connect_does_not_flush :
  ∃ st st',
    run (hi_submitted ++ [EvDisconnect]) mounted = Some st
    ∧ step EvConnect st = Some st'
    ∧ isConnected st = false ∧ isConnected st' = true
    ∧ pendingMessages st !! hi_id = Some (mkPending hi 0 (Some 1%positive))
    ∧ sent st' = sent st
    ∧ sent (exec (handleReconnect 1) st) = sent st.
Proof. do 2 eexists. conjs; evaluate. Qed.

(** C4, as the code has it. A [connect] or [reconnect] event records
    that the transport is up, logs it, and does nothing else: nothing is
    emitted (no pending entry is resent, no resynchronisation is
    requested), and the ledger, the armed timers with their deadlines,
    the awaited acknowledgments, the dedup set and the timeline are
    untouched. *)
Theorem connect_only_marks_connected (st : State) (n : Z) :
  exec handleConnect st
  = upd_isConnected (λ _, true) (upd_console (λ c, c ++ [LogConnected]) st)
  ∧ exec (handleReconnect n) st
    = upd_isConnected (λ _, true)
        (upd_console (λ c, c ++ [LogReconnected n]) st)
  ∧ ∀ st', (st' = exec handleConnect st ∨ st' = exec (handleReconnect n) st) →
      isConnected st' = true
      ∧ sent st' = sent st
      ∧ pendingMessages st' = pendingMessages st
      ∧ timers st' = timers st
      ∧ acks st' = acks st
      ∧ receivedMessageIds st' = receivedMessageIds st
      ∧ messages st' = messages st.
Proof.
  split; [done|]. split; [done|]. by intros st' [-> | ->].
Qed.

Lemma connect_only_marks_connected_witness :
  ∃ st, run (hi_submitted ++ [EvDisconnect]) mounted = Some st
        ∧ timers (exec handleConnect st) !! 1%positive = Some (mkTimer hi 0 4000)
        ∧ sent (exec handleConnect st) = [mkEmission 1000 hi].
Proof.
  eexists. split; [evaluate|].
  match goal with |- context [exec handleConnect ?s] =>
    destruct (connect_only_marks_connected s 0) as (_ & _ & H);
    destruct (H (exec handleConnect s) (or_introl eq_refl))
      as (_ & -> & _ & -> & _)
  end.
  split; evaluate.
Defined.

(** ** Removal of a ledger entry and its timer *)

Lemma upd_console_twice f g st :
  upd_console f (upd_console g st) = upd_console (f ∘ g) st.
Proof. by destruct st. Qed.

Lemma upd_pendingMessages_id f st :
  f (pendingMessages st) = pendingMessages st → upd_pendingMessages f st = st.
Proof. destruct st. cbv [upd_pendingMessages upd_timers]. simpl. intros Hf. by rewrite Hf. Qed.

Lemma upd_timers_id f st :
  f (timers st) = timers st → upd_timers f st = st.
Proof. destruct st. cbv [upd_pendingMessages upd_timers]. simpl. intros Hf. by rewrite Hf. Qed.

Lemma cancelRecorded_absent i st :
  pendingMessages st !! i = None → cancelRecorded i st = st.
Proof. unfold cancelRecorded. by intros ->. Qed.

Lemma cancelRecorded_present i p t st :
  pendingMessages st !! i = Some p → timeout p = Some t →
  cancelRecorded i st = upd_timers (delete t) st.
Proof. unfold cancelRecorded. intros -> Ht. simpl. by rewrite Ht. Qed.

(** A positive acknowledgment for an id the ledger no longer holds only
    writes to the console. *)
Lemma late_ack_ok_noop m rc r st :
  ack_success r = true →
  pendingMessages st !! msg_id m = None →
  exec (ackCallback m rc r) st
  = upd_console (λ c, (c ++ [LogAckReceived r]) ++ [LogConfirmed (msg_id m)]) st.
Proof.
  intros Hok Hnone. rewrite ackCallback_exec, Hok.
  rewrite upd_pendingMessages_id by (by apply delete_id).
  by rewrite upd_console_twice.
Qed.

(** So does a negative one for the last attempt. *)
Lemma late_nack_exhausted_noop m rc r st :
  ack_success r = false →
  (MAX_RETRIES ≤ rc)%nat →
  pendingMessages st !! msg_id m = None →
  exec (ackCallback m rc r) st
  = upd_console
      (λ c, ((c ++ [LogAckReceived r]) ++ [ErrServer (ack_error r)])
            ++ [ErrFailed (msg_id m)]) st.
Proof.
  intros Hok Hrc Hnone. rewrite ackCallback_exec, Hok.
  rewrite handleMessageFailure_exec.
  destruct (Nat.ltb_spec rc MAX_RETRIES); [lia|].
  rewrite cancelRecorded_absent by done.
  rewrite upd_pendingMessages_id by (by apply delete_id).
  by rewrite !upd_console_twice.
Qed.

(** C5 as stated fails. The relay acknowledges the message at once. The
    entry is removed,
    but its timer is still armed, and three seconds later it fires. *)
Lemma ack_leaves_timer_armed :
  ∃ st st' st'',
    run hi_submitted mounted = Some st
    ∧ pendingMessages st !! hi_id = Some (mkPending hi 0 (Some 1%positive))
    ∧ step (EvAck 0 ack_ok) st = Some st'
    ∧ pendingMessages st' !! hi_id = None
    ∧ timers st' !! 1%positive = Some (mkTimer hi 0 4000)
    ∧ step (EvAdvance 3000) st' = Some st''
    ∧ is_Some (step (EvTimer 1) st'').
Proof. do 3 eexists. conjs; try evaluate. vm_compute. eauto. Qed.

(** C5, as the code has it. On terminal failure the timer recorded in
    the entry is cancelled and the entry removed. A successful
    acknowledgment removes the entry and cancels nothing: the timer stays
    armed. When a timer fires for an id the ledger does not hold, its
    callback returns at once: the session is as before, less the timer. *)
Theorem removal_and_timers (m : Message) (rc : nat) (st : State) :
  (∀ p t, (MAX_RETRIES ≤ rc)%nat →
     pendingMessages st !! msg_id m = Some p → timeout p = Some t →
     let st' := exec (handleMessageFailure m rc) st in
     pendingMessages st' = delete (msg_id m) (pendingMessages st)
     ∧ timers st' = delete t (timers st))
  ∧ (∀ r, ack_success r = true →
     let st' := exec (ackCallback m rc r) st in
     pendingMessages st' = delete (msg_id m) (pendingMessages st)
     ∧ timers st' = timers st)
  ∧ (∀ t d, timers st !! t = Some (mkTimer m rc d) → d ≤ now st →
     pendingMessages st !! msg_id m = None →
     step (EvTimer t) st = Some (upd_timers (delete t) st)).
Proof.
  split; [|split].
  - intros p t Hrc Hp Ht. simpl. rewrite handleMessageFailure_exec.
    destruct (Nat.ltb_spec rc MAX_RETRIES); [lia|].
    by rewrite (cancelRecorded_present _ _ _ _ Hp Ht).
  - intros r Hok. simpl. by rewrite ackCallback_exec, Hok.
  - intros t d Ht Hd Hnone. simpl. rewrite Ht. simpl.
    destruct (Z.leb_spec d (now st)); [|lia].
    rewrite timerCallback_exec. simpl. rewrite Hnone.
    by rewrite bool_decide_false by (by intros [??]).
Qed.

Lemma removal_and_timers_witness :
  ∃ st0 st1 st2,
    run hi_unanswered mounted = Some st2
    ∧ run (hi_submitted
           ++ [EvAdvance 3000; EvTimer 1; EvAdvance 3000; EvTimer 2;
               EvAdvance 3000; EvTimer 3]) mounted = Some st1
    ∧ run hi_submitted mounted = Some st0
    ∧ timers (exec (handleMessageFailure hi 3) st1) !! 4%positive = None
    ∧ timers (exec (ackCallback hi 0 ack_ok) st0) !! 1%positive
      = Some (mkTimer hi 0 4000)
    ∧ step (EvTimer 1) (upd_now (λ _, 4000) (exec (ackCallback hi 0 ack_ok) st0))
      = Some (upd_timers (delete 1%positive)
                (upd_now (λ _, 4000) (exec (ackCallback hi 0 ack_ok) st0))).
Proof.
  do 3 eexists. split; [evaluate|]. split; [evaluate|]. split; [evaluate|].
  match goal with |- timers (exec _ ?s1) !! _ = _ ∧ timers (exec _ ?s0) !! _ = _ ∧ _ =>
    pose proof (removal_and_timers hi 3 s1) as (H1 & _ & _);
    pose proof (removal_and_timers hi 0 s0) as (_ & H2 & _);
    pose proof (removal_and_timers hi 0
                  (upd_now (λ _, 4000) (exec (ackCallback hi 0 ack_ok) s0)))
      as (_ & _ & H3)
  end.
  split; [|split].
  - destruct (H1 (mkPending hi 3 (Some 4%positive)) 4%positive) as [_ ->];
      [unfold MAX_RETRIES; lia|evaluate|reflexivity|evaluate].
  - destruct (H2 ack_ok eq_refl) as [_ ->]. evaluate.
  - apply (H3 1%positive 4000); [evaluate|vm_compute; discriminate|evaluate].
Defined.

(** ** Acknowledgments that arrive late *)

(** C3, on the code. The four timers of an unanswered message have
    elapsed: the entry is gone and the failure is reported. The relay's
    late, negative answer to the first transmission then sends the
    message again and puts it back in the ledger, a timer armed. *)
Lemma late_nack_resurrects :
  ∃ st st',
    run hi_unanswered mounted = Some st
    ∧ pendingMessages st = ∅
    ∧ timers st = ∅
    ∧ failures_of hi_id st = [ErrFailed hi_id]
    ∧ acks st !! 0%N = Some (mkAckWait hi 0)
    ∧ step (EvAck 0 nack) st = Some st'
    ∧ pendingMessages st' !! hi_id = Some (mkPending hi 1 (Some 5%positive))
    ∧ timers st' !! 5%positive = Some (mkTimer hi 1 16000)
    ∧ emits_of hi_id st' = emits_of hi_id st ++ [mkEmission 13000 hi].
Proof. do 2 eexists. conjs; evaluate. Qed.

(** C6, on the code. The first transmission is acknowledged while the
    message is pending; the relay's negative answer to the
    retransmission that had gone out in between then sends the message a
    third time. *)
Lemma acked_message_resent :
  ∃ st0 st st',
    run (hi_submitted ++ [EvAdvance 3000; EvTimer 1]) mounted = Some st0
    ∧ pendingMessages st0 !! hi_id = Some (mkPending hi 1 (Some 2%positive))
    ∧ step (EvAck 0 ack_ok) st0 = Some st
    ∧ pendingMessages st = ∅
    ∧ emits_of hi_id st = [mkEmission 1000 hi; mkEmission 4000 hi]
    ∧ step (EvAck 1 nack) st = Some st'
    ∧ emits_of hi_id st'
      = [mkEmission 1000 hi; mkEmission 4000 hi; mkEmission 4000 hi]
    ∧ pendingMessages st' !! hi_id = Some (mkPending hi 2 (Some 3%positive)).
Proof. do 3 eexists. conjs; evaluate. Qed.

(** ** Handlers of one message leave the others alone *)

Lemma same_for_refl i st : same_for i st st.
Proof. by repeat split. Qed.

Lemma same_for_trans i st1 st2 st3 :
  same_for i st1 st2 → same_for i st2 st3 → same_for i st1 st3.
Proof.
  intros (?&?&?&?) (?&?&?&?). repeat split; etrans; eauto.
Qed.

Lemma failures_of_log i l st :
  is_failure_of i l = false →
  failures_of i (upd_console (λ c, c ++ [l]) st) = failures_of i st.
Proof.
  intros Hl. unfold failures_of. simpl.
  rewrite filter_app, filter_cons_False, filter_nil, app_nil_r; [done|].
  by rewrite Hl.
Qed.

Lemma same_for_log i l st :
  is_failure_of i l = false →
  same_for i st (upd_console (λ c, c ++ [l]) st).
Proof. intros Hl. repeat split. by apply failures_of_log. Qed.

Lemma is_failure_of_other i j : j ≠ i → is_failure_of i (ErrFailed j) = false.
Proof. intros. simpl. by apply bool_decide_false. Qed.

Lemma timers_of_lookup_None i st t :
  timers_of i st !! t = None ↔
  ∀ tm, timers st !! t = Some tm → msg_id (tm_msg tm) ≠ i.
Proof.
  unfold timers_of. rewrite map_lookup_filter_None. simpl. split.
  - intros [Hn|Hn] tm Htm; [by rewrite Hn in Htm|by apply Hn].
  - intros H. by right.
Qed.

Lemma timers_of_cancel i st t :
  timers_of i st !! t = None →
  timers_of i (upd_timers (delete t) st) = timers_of i st.
Proof.
  intros Hn. unfold timers_of in *. simpl.
  rewrite map_filter_delete. by apply delete_id.
Qed.

Lemma sendMessageWithRetry_other i m rc st :
  wf_timers st → msg_id m ≠ i →
  same_for i st (exec (sendMessageWithRetry m rc) st).
Proof.
  intros [Hlt _] Hne. rewrite sendMessageWithRetry_exec.
  unfold same_for, timers_of, emits_of, failures_of. simpl. split_and!.
  - by rewrite lookup_insert_ne.
  - apply map_filter_insert_not'; simpl; [done|].
    intros tm Htm. apply Hlt in Htm. lia.
  - by rewrite filter_app, filter_cons_False, filter_nil, app_nil_r.
  - by rewrite filter_app, filter_cons_False, filter_nil, app_nil_r.
Qed.

Lemma cancelRecorded_other i j st :
  wf_timers st → j ≠ i → same_for i st (cancelRecorded j st).
Proof.
  intros [_ Hrec] Hne. unfold cancelRecorded.
  destruct (pendingMessages st !! j) as [p|] eqn:Hp; simpl;
    [|apply same_for_refl].
  destruct (timeout p) as [t|] eqn:Ht; [|apply same_for_refl].
  repeat split. apply timers_of_cancel, timers_of_lookup_None.
  intros tm Htm. destruct (Hrec j p t Hp Ht) as [_ Hj].
  by rewrite (Hj tm Htm).
Qed.

(** *** Well-formedness of the timer table is kept *)

Lemma wf_timers_frame st st' :
  timers st' = timers st → nextTimer st' = nextTimer st →
  pendingMessages st' = pendingMessages st →
  wf_timers st → wf_timers st'.
Proof. unfold wf_timers. by intros -> -> ->. Qed.

Lemma wf_timers_cancel t st :
  wf_timers st → wf_timers (upd_timers (delete t) st).
Proof.
  intros [Hlt Hrec]. split; simpl.
  - intros t' tm [_ Htm]%lookup_delete_Some. eauto.
  - intros j p t' Hp Ht. destruct (Hrec j p t' Hp Ht) as [? Hj].
    split; [done|]. intros tm [_ Htm]%lookup_delete_Some. eauto.
Qed.

Lemma wf_timers_remove i st :
  wf_timers st → wf_timers (upd_pendingMessages (delete i) st).
Proof.
  intros [Hlt Hrec]. split; simpl; [done|].
  intros j p t [_ Hp]%lookup_delete_Some. eauto.
Qed.

Lemma wf_timers_cancelRecorded i st :
  wf_timers st → wf_timers (cancelRecorded i st).
Proof.
  unfold cancelRecorded. destruct (_ ≫= _); [|done].
  apply wf_timers_cancel.
Qed.

Lemma wf_timers_sendMessageWithRetry m rc st :
  wf_timers st → wf_timers (exec (sendMessageWithRetry m rc) st).
Proof.
  intros [Hlt Hrec]. rewrite sendMessageWithRetry_exec. split; simpl.
  - intros t tm [[<- _]|[_ Htm]]%lookup_insert_Some; [lia|].
    apply Hlt in Htm. lia.
  - intros j p t [[<- <-]|[Hj Hp]]%lookup_insert_Some; simpl.
    + intros [= <-]. split; [lia|]. rewrite lookup_insert_eq.
      by intros tm [= <-].
    + intros Ht. destruct (Hrec j p t Hp Ht) as [Hlt' Hid].
      split; [lia|]. rewrite lookup_insert_ne by lia. done.
Qed.

Lemma wf_timers_upd_message f st :
  wf_timers st → wf_timers (upd_message f st).
Proof. by apply wf_timers_frame. Qed.

Lemma wf_timers_upd_console f st :
  wf_timers st → wf_timers (upd_console f st).
Proof. by apply wf_timers_frame. Qed.

Lemma wf_timers_upd_acks f st :
  wf_timers st → wf_timers (upd_acks f st).
Proof. by apply wf_timers_frame. Qed.

Lemma wf_timers_handleMessageFailure m rc st :
  wf_timers st → wf_timers (exec (handleMessageFailure m rc) st).
Proof.
  intros Hwf. rewrite handleMessageFailure_exec.
  destruct (rc <? MAX_RETRIES)%nat.
  - by apply wf_timers_sendMessageWithRetry, wf_timers_upd_console,
      wf_timers_cancelRecorded.
  - by apply wf_timers_remove, wf_timers_upd_console,
      wf_timers_cancelRecorded.
Qed.

Lemma initial_wf_timers me t0 c : wf_timers (initial me t0 c).
Proof. split; simpl; intros *; by rewrite lookup_empty. Qed.

Lemma step_wf_timers e st st' :
  step e st = Some st' → wf_timers st → wf_timers st'.
Proof.
  intros Hstep Hwf. destruct e;
    [| |apply step_ack_inv in Hstep as (w & _ & ->)
       |apply step_timer_inv in Hstep as (tm & _ & _ & ->)
       |apply step_advance_inv in Hstep as [_ ->]| ..];
    simpl in *; simplify_eq; try done.
  - rewrite sendMessage_exec. destruct (truthy _); [|done].
    by apply wf_timers_upd_message, wf_timers_sendMessageWithRetry.
  - rewrite ackCallback_exec. destruct (ack_success _).
    + by apply wf_timers_upd_console, wf_timers_remove,
        wf_timers_upd_console, wf_timers_upd_acks.
    + by apply wf_timers_handleMessageFailure, wf_timers_upd_console,
        wf_timers_upd_console, wf_timers_upd_acks.
  - rewrite timerCallback_exec. case_bool_decide.
    + by apply wf_timers_handleMessageFailure, wf_timers_upd_console,
        wf_timers_cancel.
    + by apply wf_timers_cancel.
  - rewrite handleSyncMessages_exec. by apply (wf_timers_frame st).
  - rewrite handleReceiveMessage_exec.
    case_bool_decide; by apply (wf_timers_frame st).
Qed.

Lemma run_wf_timers evs st st' :
  run evs st = Some st' → wf_timers st → wf_timers st'.
Proof.
  revert st. induction evs as [|e evs IH]; simpl; intros st Hrun Hwf.
  - by simplify_eq.
  - destruct (step e st) as [st1|] eqn:Hstep; simpl in *; [|done].
    eauto using step_wf_timers.
Qed.

(** *** The frame of a step *)

Lemma same_for_upd_message i f st : same_for i st (upd_message f st).
Proof. by repeat split. Qed.

Lemma handleMessageFailure_other i m rc st :
  wf_timers st → msg_id m ≠ i →
  same_for i st (exec (handleMessageFailure m rc) st).
Proof.
  intros Hwf Hne. rewrite handleMessageFailure_exec.
  pose proof (cancelRecorded_other i (msg_id m) st Hwf Hne) as Hc.
  pose proof (wf_timers_cancelRecorded (msg_id m) st Hwf) as Hwf'.
  destruct (rc <? MAX_RETRIES)%nat.
  - eapply same_for_trans; [apply Hc|].
    eapply same_for_trans;
      [|apply sendMessageWithRetry_other;
        [by apply wf_timers_upd_console|done]].
    by apply same_for_log.
  - eapply same_for_trans; [apply Hc|].
    apply (same_for_trans _ _
             (upd_console (λ c, c ++ [ErrFailed (msg_id m)])
                (cancelRecorded (msg_id m) st))).
    + by apply same_for_log, is_failure_of_other.
    + repeat split. simpl. by rewrite lookup_delete_ne.
Qed.

Lemma same_for_frame i ls st st' :
  pendingMessages st' !! i = pendingMessages st !! i →
  timers st' = timers st →
  sent st' = sent st →
  console st' = console st ++ ls →
  forallb (λ l, negb (is_failure_of i l)) ls = true →
  same_for i st st'.
Proof.
  intros Hp Ht Hs Hc Hls. unfold same_for, timers_of, emits_of, failures_of.
  rewrite Hp, Ht, Hs, Hc, filter_app. split_and!; try done.
  assert (filter (λ l, is_failure_of i l = true) ls = []) as ->;
    [|apply app_nil_r].
  clear Hc. induction ls as [|l ls IH]; [done|]. simpl in Hls.
  apply andb_prop in Hls as [Hl Hls].
  rewrite filter_cons_False; [by apply IH|].
  by destruct (is_failure_of i l).
Qed.

(** An event that is about another message, or about no message, keeps
    everything recorded for [i]. *)
Lemma step_other i e st st' :
  wf_timers st →
  step e st = Some st' →
  silent i e st →
  (∀ t, e = EvTimer t → timers_of i st !! t = None) →
  same_for i st st'.
Proof.
  intros Hwf Hstep Hsil Htim. destruct e;
    [| |apply step_ack_inv in Hstep as (w & Hw & ->)
       |apply step_timer_inv in Hstep as (tm & Htm & _ & ->)
       |apply step_advance_inv in Hstep as [_ ->]| ..];
    simpl in *; simplify_eq; try by repeat split.
  - (* submit *)
    rewrite sendMessage_exec. destruct (truthy _); [|apply same_for_refl].
    eapply same_for_trans; [|apply same_for_upd_message].
    by apply sendMessageWithRetry_other.
  - (* acknowledgment of another message *)
    specialize (Hsil w Hw). rewrite ackCallback_exec.
    destruct (ack_success _).
    + apply (same_for_frame i
               [LogAckReceived ackResponse; LogConfirmed (msg_id (aw_msg w))]);
        simpl; [by rewrite lookup_delete_ne|done|done| |done].
      by rewrite <- app_assoc.
    + eapply same_for_trans; [|apply handleMessageFailure_other; [|done]].
      * apply (same_for_frame i
                 [LogAckReceived ackResponse;
                  ErrServer (ack_error ackResponse)]);
          simpl; [done..| |done].
        by rewrite <- app_assoc.
      * by apply wf_timers_upd_console, wf_timers_upd_console,
          wf_timers_upd_acks.
  - (* timer of another message *)
    specialize (Htim t eq_refl).
    assert (msg_id (tm_msg tm) ≠ i) as Hne.
    { by apply (proj1 (timers_of_lookup_None i st t)). }
    assert (same_for i st (upd_timers (delete t) st)) as Hdel.
    { repeat split. by apply timers_of_cancel. }
    rewrite timerCallback_exec. case_bool_decide; [|done].
    eapply same_for_trans; [apply Hdel|].
    eapply same_for_trans; [|apply handleMessageFailure_other; [|done]].
    + by apply same_for_log.
    + by apply wf_timers_upd_console, wf_timers_cancel.
  - (* connect *)
    by apply (same_for_frame i [LogConnected]).
  - (* disconnect *)
    by apply (same_for_frame i [LogDisconnected]).
  - (* reconnect_attempt *)
    by apply (same_for_frame i [LogReconnectAttempt attempt]).
  - (* reconnect *)
    by apply (same_for_frame i [LogReconnected attemptNumber]).
  - (* sync_messages *)
    rewrite handleSyncMessages_exec.
    by apply (same_for_frame i [LogSynced (length syncedMessages)]).
  - (* receive_message *)
    rewrite handleReceiveMessage_exec. case_bool_decide.
    + by apply (same_for_frame i [LogDuplicate (msg_id data)]).
    + by apply (same_for_frame i [LogNewMessage (msg_id data)]).
Qed.

(** ** A message that is never acknowledged *)

Lemma Unacked_same_for m st st' :
  same_for (msg_id m) st st' → Unacked m st → Unacked m st'.
Proof.
  intros (Hp & Ht & He & Hf) [n t d ts ? ? ? ? ? ? ? ?|ts ? ? ? ? ? ?].
  - eapply (InFlight m st' n t d ts); by rewrite ?Hp, ?Ht, ?He, ?Hf.
  - eapply (GivenUp m st' ts); by rewrite ?Hp, ?Ht, ?He, ?Hf.
Qed.

Lemma spaced_snoc ts t1 t2 :
  spaced ts → last ts = Some t1 → t1 + RETRY_TIMEOUT ≤ t2 →
  spaced (ts ++ [t2]).
Proof.
  induction ts as [|a ts IH]; [done|].
  destruct ts as [|b ts]; simpl in *.
  - intros _ [= ->] ?. done.
  - intros [? ?] Hl ?. split; [done|]. by apply IH.
Qed.

Lemma failures_of_failed i st :
  failures_of i (upd_console (λ c, c ++ [ErrFailed i]) st)
  = failures_of i st ++ [ErrFailed i].
Proof.
  unfold failures_of. simpl.
  rewrite filter_app, filter_cons_True; [done|].
  simpl. by apply bool_decide_true.
Qed.

Lemma timers_of_own i t tm st :
  timers_of i st = {[ t := tm ]} →
  timers st !! t = Some tm ∧ msg_id (tm_msg tm) = i.
Proof.
  intros Hof.
  assert (timers_of i st !! t = Some tm) as Hl
    by (rewrite Hof; apply lookup_singleton_eq).
  by apply map_lookup_filter_Some in Hl.
Qed.

(** The deadline of an unacknowledged message elapses: it goes out once
    more, or, after [MAX_RETRIES] retransmissions, it is given up. *)
Lemma own_timer_fires m n t d ts st st' :
  wf_timers st →
  (n ≤ MAX_RETRIES)%nat →
  pendingMessages st !! msg_id m = Some (mkPending m n (Some t)) →
  timers_of (msg_id m) st = {[ t := mkTimer m n d ]} →
  emits_of (msg_id m) st = (λ τ, mkEmission τ m) <$> ts →
  length ts = S n →
  spaced ts →
  last ts = Some (d - RETRY_TIMEOUT) →
  failures_of (msg_id m) st = [] →
  step (EvTimer t) st = Some st' →
  Unacked m st'
  ∧ (timers_of (msg_id m) st' = ∅
     ∨ length (emits_of (msg_id m) st') = S (length (emits_of (msg_id m) st))).
Proof.
  intros Hwf Hn Hp Ht He Hlen Hsp Hlast Hf Hstep.
  apply step_timer_inv in Hstep as (tm & Htm & Hd & ->).
  destruct (timers_of_own _ _ _ _ Ht) as [Htm' _].
  rewrite Htm' in Htm. injection Htm as <-. simpl in *.
  rewrite timerCallback_exec. simpl.
  rewrite bool_decide_true by (by rewrite Hp).
  rewrite handleMessageFailure_exec.
  rewrite (cancelRecorded_present _ (mkPending m n (Some t)) t) by done.
  assert (timers_of (msg_id m)
            (upd_timers (delete t) (upd_timers (delete t) st)) = ∅) as Hgone.
  { unfold timers_of in *. simpl.
    by rewrite !map_filter_delete, Ht, delete_singleton_eq, delete_empty. }
  destruct (Nat.ltb_spec n MAX_RETRIES) as [Hlt|Hge].
  - (* one more transmission *)
    rewrite sendMessageWithRetry_exec. simpl. split.
    2:{ right. unfold emits_of. simpl.
        rewrite filter_app, filter_cons_True, filter_nil, length_app by done.
        simpl. lia. }
    apply (InFlight m _ (n + 1) (nextTimer st) (now st + RETRY_TIMEOUT)
             (ts ++ [now st])).
    + lia.
    + simpl. by rewrite lookup_insert_eq.
    + unfold timers_of in *. simpl in *.
      rewrite map_filter_insert_True by done.
      by rewrite Hgone, insert_empty.
    + unfold emits_of in *. simpl.
      rewrite filter_app, filter_cons_True, filter_nil by done.
      by rewrite He, fmap_app.
    + rewrite length_app. simpl. lia.
    + eapply spaced_snoc; [done..|lia].
    + rewrite last_snoc. f_equal. lia.
    + unfold failures_of in *. simpl.
      rewrite !filter_app, Hf. done.
  - (* given up *)
    split; [|by left]. apply (GivenUp m _ ts).
    + simpl. by rewrite lookup_delete_eq.
    + exact Hgone.
    + done.
    + lia.
    + done.
    + unfold failures_of in *. simpl. rewrite !filter_app, Hf.
      rewrite filter_cons_False by (simpl; discriminate).
      rewrite filter_cons_True; [done|]. simpl. by apply bool_decide_true.
Qed.

(** Any event that is not an answer about the message keeps it on the
    course of an unacknowledged message. *)
Lemma unacked_step m e st st' :
  wf_timers st →
  Unacked m st →
  step e st = Some st' →
  silent (msg_id m) e st →
  Unacked m st'.
Proof.
  intros Hwf Hun Hstep Hsil.
  assert ((∃ t tm, e = EvTimer t ∧ timers_of (msg_id m) st !! t = Some tm)
          ∨ ∀ t, e = EvTimer t → timers_of (msg_id m) st !! t = None)
    as [(t & tm & -> & Hsome)|Hother].
  { destruct e; try (by right).
    destruct (timers_of (msg_id m) st !! t) as [tm|] eqn:E.
    - left. by exists t, tm.
    - right. by intros ? [= <-]. }
  - destruct Hun as [n t' d ts ? ? Ht ? ? ? ? ?|ts ? Ht ? ? ? ?].
    + rewrite Ht in Hsome.
      apply lookup_singleton_Some in Hsome as [<- _].
      eapply own_timer_fires; eauto.
    + by rewrite Ht, lookup_empty in Hsome.
  - eapply Unacked_same_for; [|done]. by apply (step_other _ e).
Qed.

Lemma unacked_run m evs st st' :
  wf_timers st →
  Unacked m st →
  run evs st = Some st' →
  silent_run (msg_id m) evs st →
  Unacked m st'.
Proof.
  revert st. induction evs as [|e evs IH]; simpl; intros st Hwf Hun Hrun Hsil.
  - by simplify_eq.
  - destruct (step e st) as [st1|] eqn:Hstep; simpl in *; [|done].
    destruct Hsil as [Hsil Hrest].
    apply (IH st1); eauto using step_wf_timers, unacked_step.
Qed.

(** Submitting arms the first timer. *)
Lemma submit_unacked rnd st :
  wf_timers st →
  trim (message st) ≠ [] →
  timers_of (newId (now st) rnd) st = ∅ →
  emits_of (newId (now st) rnd) st = [] →
  failures_of (newId (now st) rnd) st = [] →
  Unacked (mkMessage (message st) (MY_USER_ID st) (newId (now st) rnd) None)
    (exec (sendMessage rnd) st).
Proof.
  intros Hwf Hne Ht He Hf. rewrite sendMessage_exec.
  destruct (trim (message st)) eqn:E; [done|]. simpl.
  apply (InFlight _ _ 0 (nextTimer st) (now st + RETRY_TIMEOUT) [now st]).
  - unfold MAX_RETRIES. lia.
  - simpl. by rewrite lookup_insert_eq.
  - unfold timers_of in *. simpl in *.
    rewrite map_filter_insert_True by done. by rewrite Ht, insert_empty.
  - unfold emits_of in *. simpl in *.
    rewrite filter_app, filter_cons_True, filter_nil by done. by rewrite He.
  - done.
  - done.
  - simpl. f_equal. lia.
  - unfold failures_of in *. simpl in *. by rewrite filter_app, Hf.
Qed.

Lemma Unacked_bound m st :
  Unacked m st → (length (emits_of (msg_id m) st) ≤ S MAX_RETRIES)%nat.
Proof.
  intros [n t d ts ? ? ? He Hl ? ? ?|ts ? ? He Hl ? ?];
    rewrite He, length_fmap, Hl; lia.
Qed.

(** Letting the deadlines elapse, one after the other, brings an
    unacknowledged message to its end. *)
Lemma unacked_progress m st :
  wf_timers st → Unacked m st →
  ∃ evs st',
    run evs st = Some st'
    ∧ silent_run (msg_id m) evs st
    ∧ timers_of (msg_id m) st' = ∅.
Proof.
  intros Hwf Hun.
  remember (S MAX_RETRIES - length (emits_of (msg_id m) st))%nat as k eqn:Hk.
  assert (S MAX_RETRIES - length (emits_of (msg_id m) st) ≤ k)%nat as Hle
    by lia.
  clear Hk. revert st Hwf Hun Hle.
  induction k as [|k IH]; intros st Hwf Hun Hle;
    (destruct Hun as [n t d ts Hn Hp Ht He Hlen Hsp Hlast Hf|ts ? Ht ? ? ? ?];
     [|by exists [], st]).
  all: destruct (timers_of_own _ _ _ _ Ht) as [Htm _].
  all: set (dt := Z.max 0 (d - now st)).
  all: set (st1 := upd_now (λ τ, τ + dt) st).
  all: assert (step (EvAdvance dt) st = Some st1) as Hadv
    by (simpl; destruct (Z.leb_spec 0 dt); [done|lia]).
  all: assert (∃ st2, step (EvTimer t) st1 = Some st2) as [st2 Hfire]
    by (simpl; rewrite Htm; simpl;
        destruct (Z.leb_spec d (now st + dt)); [eauto|lia]).
  all: assert (wf_timers st1) as Hwf1 by (by apply (wf_timers_frame st)).
  all: destruct (own_timer_fires m n t d ts st1 st2) as [Hun2 Hcase];
    try done.
  all: assert (wf_timers st2) as Hwf2 by eauto using step_wf_timers.
  all: assert (run [EvAdvance dt; EvTimer t] st = Some st2) as Hrun2
    by (cbn [run]; rewrite Hadv; cbn [mbind option_bind]; by rewrite Hfire).
  all: destruct Hcase as [Hdone|Hmore];
    [exists [EvAdvance dt; EvTimer t], st2; split; [done|]; split; [|done];
     cbn [silent_run silent]; rewrite Hadv, Hfire; done|].
  all: pose proof (Unacked_bound _ _ Hun2) as Hb.
  all: assert (emits_of (msg_id m) st1 = emits_of (msg_id m) st) as He1 by done.
  all: rewrite He1 in Hmore.
  - lia.
  - destruct (IH st2 Hwf2 Hun2) as (evs & st3 & Hrun & Hsil & Hend); [lia|].
    exists ([EvAdvance dt; EvTimer t] ++ evs), st3.
    split; [|split; [|done]].
    + cbn [app run]. rewrite Hadv. cbn [mbind option_bind].
      rewrite Hfire. done.
    + cbn [app silent_run silent]. rewrite Hadv, Hfire. done.
Qed.

(** ** The unanswered message, end to end *)

(** C2 as stated fails. The last deadline of the unanswered message
    elapses. The entry is
    removed and two lines are written to the console; the React state,
    the transport and the awaited acknowledgments are exactly as before:
    nothing reaches the boundary. *)
Lemma terminal_failure_only_logged :
  ∃ st st',
    run hi_last_deadline mounted = Some st
    ∧ pendingMessages st !! hi_id = Some (mkPending hi 3 (Some 4%positive))
    ∧ length (emits_of hi_id st) = 4%nat
    ∧ step (EvTimer 4) st = Some st'
    ∧ pendingMessages st' !! hi_id = None
    ∧ console st' = console st ++ [WarnNoAck hi_id; ErrFailed hi_id]
    ∧ view st' = view st
    ∧ sent st' = sent st
    ∧ acks st' = acks st.
Proof. do 2 eexists. conjs; evaluate. Qed.

(** C2, as the code has it. A message is submitted under an id never
    used before, and no answer about it ever reaches the client, whatever
    else happens in between. Then the message goes out at most
    [1 + MAX_RETRIES] times, unchanged, each transmission at least
    [RETRY_TIMEOUT] after the previous one. Once no timer is armed for it
    any more, it has gone out exactly [1 + MAX_RETRIES] times (the
    submission and [MAX_RETRIES] retransmissions), its ledger entry is
    removed and the failure is reported by exactly one [console.error]
    line; while a timer is armed it is pending and no failure is
    reported. Letting the deadlines elapse always leads there. Giving up
    writes to the console only: neither the React state nor the transport
    sees anything of it. *)
Theorem unanswered_message_schedule
    (rnd : jsstring) (evs : list Event) (st0 st : State) :
  let i := newId (now st0) rnd in
  let m := mkMessage (message st0) (MY_USER_ID st0) i None in
  wf_timers st0 →
  fresh i st0 →
  trim (message st0) ≠ [] →
  run (EvSubmit rnd :: evs) st0 = Some st →
  silent_run i evs (exec (sendMessage rnd) st0) →
  (∃ ts,
     emits_of i st = (λ τ, mkEmission τ m) <$> ts
     ∧ spaced ts
     ∧ (1 ≤ length ts ≤ 1 + MAX_RETRIES)%nat
     ∧ (timers_of i st = ∅ →
          length ts = (1 + MAX_RETRIES)%nat
          ∧ pendingMessages st !! i = None
          ∧ failures_of i st = [ErrFailed i])
     ∧ (timers_of i st ≠ ∅ →
          is_Some (pendingMessages st !! i) ∧ failures_of i st = []))
  ∧ (∃ evs' st', run evs' st = Some st'
                 ∧ silent_run i evs' st
                 ∧ timers_of i st' = ∅)
  ∧ (∀ s, let s' := exec (handleMessageFailure m MAX_RETRIES) s in
          view s' = view s ∧ sent s' = sent s ∧ acks s' = acks s
          ∧ console s' = console s ++ [ErrFailed i]).
Proof.
  intros i m Hwf (Ht & He & Hf) Hne Hrun Hsil. subst i m.
  cbn [run step] in Hrun. cbn [mbind option_bind] in Hrun.
  pose proof (submit_unacked rnd st0 Hwf Hne Ht He Hf) as Hun0.
  assert (wf_timers (exec (sendMessage rnd) st0)) as Hwf1
    by (by apply (step_wf_timers (EvSubmit rnd) st0)).
  pose proof (unacked_run _ _ _ _ Hwf1 Hun0 Hrun Hsil) as Hun.
  pose proof (run_wf_timers _ _ _ Hrun Hwf1) as Hwf2.
  split; [|split].
  - destruct Hun as [n t d ts Hn Hp Ht' He' Hlen Hsp Hlast Hf'
                    |ts Hp Ht' He' Hlen Hsp Hf'];
      cbn [msg_id] in *;
      exists ts; (split; [done|]); (split; [done|]).
    + split; [unfold MAX_RETRIES in *; lia|]. split.
      * intros Hempty. rewrite Hempty in Ht'.
        symmetry in Ht'. by apply map_non_empty_singleton in Ht'.
      * intros _. by rewrite Hp.
    + split; [unfold MAX_RETRIES in *; lia|]. split; [done|].
      intros Hnon. by destruct Hnon.
  - exact (unacked_progress _ _ Hwf2 Hun).
  - intros s. simpl. rewrite handleMessageFailure_exec.
    destruct (Nat.ltb_spec MAX_RETRIES MAX_RETRIES); [lia|].
    unfold cancelRecorded. by destruct (_ ≫= _).
Qed.

Lemma unanswered_message_schedule_witness :
  ∃ st, run hi_unanswered mounted = Some st
        ∧ em_time <$> emits_of hi_id st = [1000; 4000; 7000; 10000]
        ∧ pendingMessages st !! hi_id = None
        ∧ failures_of hi_id st = [ErrFailed hi_id].
Proof.
  eexists. split; [evaluate|].
  match goal with |- context [emits_of _ ?s] => set (st := s) end.
  destruct (unanswered_message_schedule (of_ascii "k3")
              [EvAdvance 3000; EvTimer 1; EvAdvance 3000; EvTimer 2;
               EvAdvance 3000; EvTimer 3; EvAdvance 3000; EvTimer 4]
              (exec (setMessage (of_ascii "hi")) mounted) st)
    as ((ts & He & Hsp & Hlen & Hend & _) & _ & _).
  - apply (step_wf_timers (EvInput (of_ascii "hi")) mounted); [done|].
    apply initial_wf_timers.
  - repeat split; evaluate.
  - vm_compute. discriminate.
  - evaluate.
  - vm_compute. tauto.
  - destruct Hend as (_ & Hp & Hf); [evaluate|].
    split; [evaluate|]. split; [exact Hp|exact Hf].
Defined.

(** ** After the entry is removed *)

(** Once the ledger no longer holds an id, the message goes out again
    only if an answer about it arrives or the id is submitted anew: the
    timers still armed for it fire without effect. *)
Lemma removed_stays_silent i evs st st' :
  wf_timers st →
  pendingMessages st !! i = None →
  run evs st = Some st' →
  silent_run i evs st →
  emits_of i st' = emits_of i st ∧ pendingMessages st' !! i = None.
Proof.
  revert st. induction evs as [|e evs IH]; simpl; intros st Hwf Hp Hrun Hsil.
  - by simplify_eq.
  - destruct (step e st) as [st1|] eqn:Hstep; simpl in *; [|done].
    destruct Hsil as [Hsil Hrest].
    assert (emits_of i st1 = emits_of i st ∧ pendingMessages st1 !! i = None)
      as [He1 Hp1].
    { assert ((∃ t tm, e = EvTimer t ∧ timers_of i st !! t = Some tm)
              ∨ ∀ t, e = EvTimer t → timers_of i st !! t = None)
        as [(t & tm & -> & Hsome)|Hother].
      { destruct e; try (by right).
        destruct (timers_of i st !! t) as [tm|] eqn:E.
        - left. by exists t, tm.
        - right. by intros ? [= <-]. }
      - apply map_lookup_filter_Some in Hsome as [Htm Hid]. simpl in Hid.
        apply step_timer_inv in Hstep as (tm' & Htm' & _ & ->).
        rewrite Htm in Htm'. injection Htm' as <-.
        rewrite timerCallback_exec. simpl. rewrite Hid, Hp.
        by rewrite bool_decide_false by (by intros [??]).
      - destruct (step_other i e st st1 Hwf Hstep Hsil Hother)
          as (Hp1 & _ & He1 & _).
        by rewrite Hp1, He1. }
    destruct (IH st1) as [He Hp']; eauto using step_wf_timers.
    by rewrite He, He1.
Qed.

(** A positive acknowledgment removes the entry; with no further answer
    about the id, the message is never sent again. *)
Lemma acked_then_unanswered_never_resent k r w evs st st1 st' :
  wf_timers st →
  acks st !! k = Some w →
  ack_success r = true →
  step (EvAck k r) st = Some st1 →
  run evs st1 = Some st' →
  silent_run (msg_id (aw_msg w)) evs st1 →
  pendingMessages st1 !! msg_id (aw_msg w) = None
  ∧ emits_of (msg_id (aw_msg w)) st' = emits_of (msg_id (aw_msg w)) st.
Proof.
  intros Hwf Hw Hok Hstep Hrun Hsil.
  pose proof (step_wf_timers _ _ _ Hstep Hwf) as Hwf1.
  apply step_ack_inv in Hstep as (w' & Hw' & ->).
  rewrite Hw in Hw'. injection Hw' as <-.
  rewrite ackCallback_exec, Hok in *. simpl in *.
  assert (pendingMessages
            (upd_console (λ c, c ++ [LogConfirmed (msg_id (aw_msg w))])
               (upd_pendingMessages (delete (msg_id (aw_msg w)))
                  (upd_console (λ c, c ++ [LogAckReceived r])
                     (upd_acks (delete k) st)))) !! msg_id (aw_msg w) = None)
    as Hgone by (simpl; apply lookup_delete_eq).
  split; [done|].
  by destruct (removed_stays_silent _ _ _ _ Hwf1 Hgone Hrun Hsil) as [-> _].
Qed.

(* ================================================================== *)
(** * Further properties of the component *)
(* ================================================================== *)

(** ** The hash behind the colour *)

Lemma ToInt32_wrap x : ∃ k, ToInt32 x = x + k * 2 ^ 32.
Proof.
  unfold ToInt32. pose proof (Z.div_mod x (2 ^ 32) ltac:(lia)) as Hdm.
  destruct (Z.ltb_spec (x mod 2 ^ 32) (2 ^ 31)).
  - exists (- (x `div` 2 ^ 32)). lia.
  - exists (- (x `div` 2 ^ 32) - 1). lia.
Qed.

Lemma ToInt32_add_wraps x k : ToInt32 (x + k * 2 ^ 32) = ToInt32 x.
Proof. apply ToInt32_congr, Z.mod_add. lia. Qed.

(** Wrapped to 32 bits, the hash of [stringToNeonColor] is the classic
    [h := 31 * h + c] string hash, on every string of at most 2^21 code
    units. The hash itself is not wrapped: only the shifted term is, the
    subtraction is done on Numbers, which is exact up to that length
    (beyond it the Number arithmetic may round, and the two hashes part). *)
Theorem hashOf_java (str : jsstring) :
  wf_string str →
  Z.of_nat (length str) ≤ 2 ^ 21 →
  ToInt32 (hashOf str) = javaHash str.
Proof.
  induction str as [|c str IH] using rev_ind; intros Hwf Hlen; [done|].
  apply Forall_app in Hwf as [Hwf Hc]. apply Forall_inv in Hc.
  rewrite length_app in Hlen. simpl in Hlen.
  specialize (IH Hwf ltac:(lia)).
  pose proof (hashOf_magnitude str Hwf ltac:(literals; lia)) as Hm.
  rewrite hashOf_snoc, hashStep_exact by (literals; first [lia|done]).
  unfold javaHash in *. rewrite foldl_app. simpl.
  rewrite <- IH. rewrite shl_5.
  destruct (ToInt32_wrap (32 * hashOf str)) as [k1 ->].
  destruct (ToInt32_wrap (hashOf str)) as [k2 ->].
  rewrite <- (ToInt32_add_wraps (31 * (_ + _) + _) (k1 - 31 * k2)).
  f_equal. lia.
Qed.

Lemma hashOf_java_witness :
  ToInt32 (hashOf (of_ascii "abcdefghijk")) = javaHash (of_ascii "abcdefghijk")
  ∧ hashOf (of_ascii "abcdefghijk") = 6105956454
  ∧ javaHash (of_ascii "abcdefghijk") = 1810989158.
Proof.
  split; [|by vm_compute].
  apply (hashOf_java (of_ascii "abcdefghijk"));
    [apply (bool_decide_unpack _); by vm_compute|by vm_compute].
Defined.

(** ** Message ids *)

Lemma of_ascii_inj s1 s2 : of_ascii s1 = of_ascii s2 → s1 = s2.
Proof.
  unfold of_ascii. intros H.
  rewrite <- (String.string_of_list_ascii_of_string s1).
  rewrite <- (String.string_of_list_ascii_of_string s2). f_equal.
  revert H. generalize (String.list_ascii_of_string s2).
  induction (String.list_ascii_of_string s1) as [|a l IH];
    intros [|b l']; simpl; try done.
  intros [= Hab Hl]. f_equal; [|by apply IH].
  by rewrite <- (ascii_N_embedding a), <- (ascii_N_embedding b), Hab.
Qed.

Lemma of_ascii_String c s : of_ascii (String c s) = N_of_ascii c :: of_ascii s.
Proof. done. Qed.

Lemma pretty_N_char_no_dash x : N_of_ascii (pretty_N_char x) ≠ dash.
Proof. unfold pretty_N_char. by repeat case_match. Qed.

Lemma pretty_N_go_no_dash x s :
  dash ∉ of_ascii s → dash ∉ of_ascii (pretty_N_go x s).
Proof.
  revert s. induction (N.lt_wf_0 x) as [x _ IH]; intros s Hs.
  destruct (decide (x = 0)%N) as [->|Hx]; [by rewrite pretty_N_go_0|].
  rewrite pretty_N_go_step by lia. apply IH.
  - apply N.div_lt; lia.
  - rewrite of_ascii_String, not_elem_of_cons. split; [|done].
    intros Heq. by apply (pretty_N_char_no_dash (x `mod` 10)).
Qed.

(** The decimal text of an instant that is not negative has no dash. *)
Lemma NumberToString_no_dash t : 0 ≤ t → dash ∉ NumberToString t.
Proof.
  intros Ht. unfold NumberToString, pretty, pretty_Z.
  destruct t as [|p|p]; [|apply pretty_N_go_no_dash|lia].
  - vm_compute. by intros [[=]|[]%elem_of_nil]%elem_of_cons.
  - unfold dash. vm_compute. by intros []%elem_of_nil.
Qed.

Lemma split_at_first {A} (x : A) (l1 l2 r1 r2 : list A) :
  x ∉ l1 → x ∉ l2 → l1 ++ x :: r1 = l2 ++ x :: r2 → l1 = l2 ∧ r1 = r2.
Proof.
  revert l2. induction l1 as [|a l1 IH]; intros [|b l2] H1 H2 Heq;
    simpl in *.
  - by simplify_eq.
  - simplify_eq. by apply not_elem_of_cons in H2 as [? _].
  - simplify_eq. by apply not_elem_of_cons in H1 as [? _].
  - injection Heq as -> Heq.
    apply not_elem_of_cons in H1 as [_ H1].
    apply not_elem_of_cons in H2 as [_ H2].
    destruct (IH l2 H1 H2 Heq) as [-> ->]. done.
Qed.

(** Two ids built at instants that are not negative are equal only if
    both the instant and the random suffix are: the dash cannot be
    confused with the digits before it. *)
Theorem newId_inj (t1 t2 : Z) (r1 r2 : jsstring) :
  0 ≤ t1 → 0 ≤ t2 → newId t1 r1 = newId t2 r2 → t1 = t2 ∧ r1 = r2.
Proof.
  intros H1 H2 Heq. unfold newId in Heq.
  change (of_ascii "-") with [dash] in Heq. simpl in Heq.
  apply split_at_first in Heq as [Ht ->];
    [|by apply NumberToString_no_dash..].
  split; [|done]. apply of_ascii_inj in Ht. by apply (inj pretty) in Ht.
Qed.

Lemma newId_inj_witness :
  (1000 = 1000 ∧ of_ascii "k3" = of_ascii "k3")
  ∧ newId 1000 (of_ascii "k3") ≠ newId 100 (of_ascii "0-k3").
Proof.
  split.
  - apply (newId_inj 1000 1000 (of_ascii "k3") (of_ascii "k3"));
      [lia|lia|reflexivity].
  - intros Heq. apply newId_inj in Heq as [Ht _]; [done|lia|lia].
Defined.

(** ** The send form again *)

Lemma trimStart_nil s :
  trimStart s = [] ↔ Forall (λ c, isWhiteSpace c = true) s.
Proof.
  induction s as [|c s IH]; simpl; [by split|].
  destruct (isWhiteSpace c) eqn:Hc.
  - rewrite IH. split; [by constructor|by intros [_ ?]%Forall_cons].
  - split; [done|]. intros [Hc' _]%Forall_cons. congruence.
Qed.

Lemma trimStart_suffix s : trimStart s `suffix_of` s.
Proof.
  induction s as [|c s IH]; simpl; [done|].
  destruct (isWhiteSpace c); [by apply suffix_cons_r|done].
Qed.

Lemma trimStart_head s c r : trimStart s = c :: r → isWhiteSpace c = false.
Proof.
  induction s as [|a s IH]; simpl; [done|].
  destruct (isWhiteSpace a) eqn:Ha; [done|]. by intros [= <- _].
Qed.

(** [trim] yields the empty string exactly on the inputs made of white
    space only. *)
Lemma trim_nil s : trim s = [] ↔ Forall (λ c, isWhiteSpace c = true) s.
Proof.
  unfold trim, trimEnd. split.
  - intros H. apply (f_equal (@rev N)) in H. rewrite rev_involutive in H.
    simpl in H. apply trimStart_nil in H.
    apply trimStart_nil. destruct (trimStart s) as [|c r] eqn:E; [done|].
    apply trimStart_head in E.
    assert (c ∈ rev (c :: r)) as Hin.
    { apply list_elem_of_In, (proj1 (in_rev _ _)). by left. }
    rewrite Forall_forall in H. specialize (H c Hin). congruence.
  - intros H. apply trimStart_nil in H. by rewrite H.
Qed.

(** The form sends exactly when the input holds a character that is not
    white space, and then the text goes out as typed, the white space
    around it included; an input of white space only is left in the
    field and nothing happens. *)
Theorem sendMessage_sends_as_typed (rnd : jsstring) (st : State) :
  (Exists (λ c, isWhiteSpace c = false) (message st) →
     ∃ m, sent (exec (sendMessage rnd) st) = sent st ++ [mkEmission (now st) m]
          ∧ msg_text m = message st
          ∧ msg_senderId m = MY_USER_ID st
          ∧ msg_id m = newId (now st) rnd
          ∧ msg_timestamp m = None
          ∧ message (exec (sendMessage rnd) st) = [])
  ∧ (Forall (λ c, isWhiteSpace c = true) (message st) →
       exec (sendMessage rnd) st = st).
Proof.
  rewrite sendMessage_exec. split.
  - intros Hex. destruct (trim (message st)) eqn:E.
    + apply trim_nil in E. apply Exists_exists in Hex as (c & Hin & Hc).
      rewrite Forall_forall in E. specialize (E c Hin). congruence.
    + simpl. by eexists (mkMessage _ _ _ _).
  - intros Hall. apply trim_nil in Hall. by rewrite Hall.
Qed.

Lemma sendMessage_sends_as_typed_witness :
  let typed := exec (setMessage (of_ascii "  hi ")) mounted in
  let blank := exec (setMessage [9; 32; 160; 8232]%N) mounted in
  (em_msg <$> sent (exec (sendMessage (of_ascii "k3")) typed))
  = [mkMessage (of_ascii "  hi ") (of_ascii "me") hi_id None]
  ∧ exec (sendMessage (of_ascii "k3")) blank = blank.
Proof.
  intros typed blank.
  destruct (sendMessage_sends_as_typed (of_ascii "k3") typed) as [H1 _].
  destruct (sendMessage_sends_as_typed (of_ascii "k3") blank) as [_ H2].
  split.
  - destruct H1 as (m & -> & Ht & Hs & Hi & Hts & _).
    + apply (bool_decide_unpack _). by vm_compute.
    + destruct m. simpl in *. by subst.
  - apply H2. apply (bool_decide_unpack _). by vm_compute.
Defined.

(** ** The connection flag *)

Lemma cancelRecorded_view i st : view (cancelRecorded i st) = view st.
Proof. unfold cancelRecorded. by destruct (_ ≫= _). Qed.

Lemma handleMessageFailure_view m rc st :
  view (exec (handleMessageFailure m rc) st) = view st.
Proof.
  rewrite handleMessageFailure_exec.
  destruct (rc <? MAX_RETRIES)%nat; simpl; apply cancelRecorded_view.
Qed.

Lemma step_isConnected e st st' :
  step e st = Some st' →
  isConnected st' = default (isConnected st) (setsConnectivity e).
Proof.
  intros Hstep. destruct e;
    [| |apply step_ack_inv in Hstep as (w & _ & ->)
       |apply step_timer_inv in Hstep as (tm & _ & _ & ->)
       |apply step_advance_inv in Hstep as [_ ->]| ..];
    simpl in *; simplify_eq; try done.
  - rewrite sendMessage_exec. by destruct (truthy _).
  - rewrite ackCallback_exec. destruct (ack_success _); [done|].
    pose proof (handleMessageFailure_view (aw_msg w) (aw_retry w)
      (upd_console (λ c, c ++ [ErrServer (ack_error ackResponse)])
         (upd_console (λ c, c ++ [LogAckReceived ackResponse])
            (upd_acks (delete k) st)))) as Hv.
    by injection Hv.
  - rewrite timerCallback_exec. case_bool_decide; [|done].
    pose proof (handleMessageFailure_view (tm_msg tm) (tm_retry tm)
      (upd_console (λ c, c ++ [WarnNoAck (msg_id (tm_msg tm))])
         (upd_timers (delete t) st))) as Hv.
    by injection Hv.
  - by rewrite handleSyncMessages_exec.
  - rewrite handleReceiveMessage_exec. by case_bool_decide.
Qed.

(** After any run, the connection flag says what the last [connect],
    [reconnect] or [disconnect] event said, or what it said at the start
    if there was none: a [reconnect_attempt] and every other event leave
    it alone. *)
Theorem connectivity_follows_transport
    (evs : list Event) (st st' : State) :
  run evs st = Some st' →
  isConnected st' = connectivity (isConnected st) evs.
Proof.
  unfold connectivity. revert st.
  induction evs as [|e evs IH]; simpl; intros st Hrun.
  - by simplify_eq.
  - destruct (step e st) as [st1|] eqn:Hstep; simpl in *; [|done].
    rewrite (IH st1 Hrun). by rewrite (step_isConnected _ _ _ Hstep).
Qed.

Lemma connectivity_follows_transport_witness :
  ∃ st, run (hi_submitted
             ++ [EvDisconnect; EvReconnectAttempt 1; EvAdvance 3000;
                 EvTimer 1; EvReconnectAttempt 2]) mounted = Some st
        ∧ isConnected st = false.
Proof.
  eexists. split; [evaluate|].
  match goal with |- isConnected ?s = _ => set (st := s) end.
  by rewrite (connectivity_follows_transport
                (hi_submitted
                 ++ [EvDisconnect; EvReconnectAttempt 1; EvAdvance 3000;
                     EvTimer 1; EvReconnectAttempt 2]) mounted st).
Defined.

Lemma sendMessageWithRetry_flag b m rc st :
  exec (sendMessageWithRetry m rc) (upd_isConnected (λ _, b) st)
  = upd_isConnected (λ _, b) (exec (sendMessageWithRetry m rc) st).
Proof. by destruct st. Qed.

Lemma cancelRecorded_flag b i st :
  cancelRecorded i (upd_isConnected (λ _, b) st)
  = upd_isConnected (λ _, b) (cancelRecorded i st).
Proof.
  unfold cancelRecorded. simpl. by destruct (_ ≫= _); destruct st.
Qed.

Lemma handleMessageFailure_flag b m rc st :
  exec (handleMessageFailure m rc) (upd_isConnected (λ _, b) st)
  = upd_isConnected (λ _, b) (exec (handleMessageFailure m rc) st).
Proof.
  rewrite !handleMessageFailure_exec, cancelRecorded_flag.
  generalize (cancelRecorded (msg_id m) st). intros s.
  destruct (rc <? MAX_RETRIES)%nat; by destruct s.
Qed.

(** No handler of the delivery agent reads the connection flag: a
    submission, an acknowledgment, a timer or a delivery does the same
    whether the client believes to be connected or not, and leaves the
    flag as it found it. In particular retransmissions go on while the
    client is disconnected; only the disabled form holds submissions
    back. A transport event overwrites the flag without reading it. *)
Theorem handlers_ignore_connectivity (e : Event) (b : bool) (st : State) :
  step e (upd_isConnected (λ _, b) st)
  = match setsConnectivity e with
    | Some _ => step e st
    | None => upd_isConnected (λ _, b) <$> step e st
    end.
Proof.
  destruct e; simpl; try (by destruct st).
  - (* submit *)
    rewrite !sendMessage_exec. simpl. destruct (truthy _); [|done].
    rewrite (sendMessageWithRetry_flag b). simpl.
    generalize (exec (sendMessageWithRetry
      (mkMessage (message st) (MY_USER_ID st) (newId (now st) rnd) None) 0) st).
    intros s. by destruct s.
  - (* acknowledgment *)
    destruct (acks st !! k) as [w|]; simpl; [|done]. f_equal.
    rewrite !ackCallback_exec. destruct (ack_success _); [by destruct st|].
    rewrite <- handleMessageFailure_flag. f_equal; by destruct st.
  - (* timer *)
    destruct (timers st !! t) as [tm|]; simpl; [|done].
    destruct (_ <=? _); simpl; [|done]. f_equal.
    rewrite !timerCallback_exec. simpl. case_bool_decide; [|by destruct st].
    rewrite <- handleMessageFailure_flag. f_equal; by destruct st.
  - (* time *)
    destruct (0 <=? dt); [|done]. by destruct st.
  - (* sync_messages *)
    rewrite !handleSyncMessages_exec. by destruct st.
  - (* receive_message *)
    rewrite !handleReceiveMessage_exec. simpl.
    case_bool_decide; by destruct st.
Qed.

(** ** The timeline only grows *)

Lemma step_dedup_set_grows e st st' :
  step e st = Some st' → receivedMessageIds st ⊆ receivedMessageIds st'.
Proof.
  intros [_ ->]%step_timeline. rewrite admitBatch_seen. set_solver.
Qed.

(** Whatever happens, the timeline is only ever extended at its end
    (no message is removed, replaced or moved), and the dedup set never
    forgets an id. *)
Theorem timeline_append_only (evs : list Event) (st st' : State) :
  run evs st = Some st' →
  messages st `prefix_of` messages st'
  ∧ receivedMessageIds st ⊆ receivedMessageIds st'.
Proof.
  revert st. induction evs as [|e evs IH]; simpl; intros st Hrun.
  - by simplify_eq.
  - destruct (step e st) as [st1|] eqn:Hstep; simpl in *; [|done].
    destruct (IH st1 Hrun) as [Hp Hs].
    pose proof (step_dedup_set_grows _ _ _ Hstep) as Hs1.
    apply step_timeline in Hstep as [Hm _]. split; [|set_solver].
    etrans; [|apply Hp]. rewrite Hm. by apply prefix_app_r.
Qed.

Lemma timeline_append_only_witness :
  let a := mkMessage (of_ascii "one") (of_ascii "bob") (of_ascii "a") None in
  let b := mkMessage (of_ascii "two") (of_ascii "eve") (of_ascii "b") None in
  let st := exec (handleReceiveMessage a) mounted in
  ∃ st', run (hi_submitted ++ [EvSyncMessages [b; a]; EvDisconnect]) st
         = Some st'
         ∧ [a] `prefix_of` messages st'.
Proof.
  intros a b st. eexists. split; [evaluate|].
  match goal with |- _ `prefix_of` messages ?s => set (st' := s) end.
  apply (timeline_append_only
           (hi_submitted ++ [EvSyncMessages [b; a]; EvDisconnect]) st st').
  evaluate.
Defined.

(** From mounting on, the ids shown are pairwise distinct (they are the
    React keys of the list) and they are exactly the ids the dedup set
    holds: no id is recorded without its message being shown. *)
Theorem timeline_keys_unique
    (me : jsstring) (t0 : Z) (c : bool) (evs : list Event) (st : State) :
  run evs (initial me t0 c) = Some st →
  NoDup (msg_id <$> messages st)
  ∧ receivedMessageIds st = list_to_set (msg_id <$> messages st).
Proof.
  intros Hrun.
  destruct (run_dedup_inv _ _ _ Hrun (initial_dedup_inv me t0 c))
    as [Hnd Hagree].
  split; [done|]. apply set_eq. intros i.
  by rewrite Hagree, elem_of_list_to_set.
Qed.

Lemma timeline_keys_unique_witness :
  let a := mkMessage (of_ascii "one") (of_ascii "bob") (of_ascii "a") None in
  let a' := mkMessage (of_ascii "uno") (of_ascii "eve") (of_ascii "a") None in
  ∃ st, run [EvReceiveMessage a; EvSyncMessages [a'; a]; EvReceiveMessage a']
          mounted = Some st
        ∧ NoDup (msg_id <$> messages st).
Proof.
  intros a a'. eexists. split; [evaluate|].
  match goal with |- NoDup (_ <$> messages ?s) => set (st := s) end.
  apply (timeline_keys_unique (of_ascii "me") 1000 true
           [EvReceiveMessage a; EvSyncMessages [a'; a]; EvReceiveMessage a']
           st).
  evaluate.
Defined.

(** ** Replays *)

Lemma admitBatch_known seen l :
  (∀ m, m ∈ l → msg_id m ∈ seen) → admitBatch seen l = ([], seen).
Proof.
  induction l as [|m l IH]; intros Hall; [done|].
  cbn [admitBatch]. unfold admitOne.
  rewrite bool_decide_true by (apply Hall; left).
  rewrite IH; [done|]. intros m' Hm'. apply Hall. by right.
Qed.

(** A batch that carries only ids already recorded is dropped whole: it
    writes one console line and nothing else. So a replay is idempotent:
    delivering the same batch a second time changes neither the timeline
    nor the dedup set, whatever the batch. *)
Theorem sync_replay_idempotent (batch : list Message) (st : State) :
  ((∀ m, m ∈ batch → msg_id m ∈ receivedMessageIds st) →
     exec (handleSyncMessages batch) st
     = upd_console (λ c, c ++ [LogSynced (length batch)]) st)
  ∧ (let st1 := exec (handleSyncMessages batch) st in
     exec (handleSyncMessages batch) st1
     = upd_console (λ c, c ++ [LogSynced (length batch)]) st1).
Proof.
  assert (∀ s, (∀ m, m ∈ batch → msg_id m ∈ receivedMessageIds s) →
            exec (handleSyncMessages batch) s
            = upd_console (λ c, c ++ [LogSynced (length batch)]) s) as Hknown.
  { intros s Hall. rewrite handleSyncMessages_exec, admitBatch_known by done.
    destruct s. cbv [upd_console upd_messages upd_receivedMessageIds].
    simpl. by rewrite app_nil_r. }
  split; [apply Hknown|]. intros st1. apply Hknown. intros m Hm.
  unfold st1. rewrite handleSyncMessages_exec. simpl.
  rewrite admitBatch_seen, elem_of_union, elem_of_list_to_set. left.
  by apply list_elem_of_fmap_2.
Qed.

Lemma sync_replay_idempotent_witness :
  let a := mkMessage (of_ascii "one") (of_ascii "bob") (of_ascii "a") None in
  let st := exec (handleReceiveMessage a) mounted in
  messages (exec (handleSyncMessages [a; a]) st) = [a].
Proof.
  intros a st.
  rewrite (proj1 (sync_replay_idempotent [a; a] st)); [evaluate|].
  intros m Hm. apply (bool_decide_unpack _).
  apply elem_of_cons in Hm as [->|Hm];
    [|apply elem_of_cons in Hm as [->|Hm]; [|by apply elem_of_nil in Hm]];
    by vm_compute.
Defined.

(** ** Answers of the relay *)

(** An answer about a message the ledger does not hold any more does
    nothing but write to the console when it is positive, or when it is
    negative and answers the last attempt. *)
Theorem late_ack_only_logs
    (m : Message) (rc : nat) (r : AckResponse) (st : State) :
  pendingMessages st !! msg_id m = None →
  ack_success r = true ∨ (MAX_RETRIES ≤ rc)%nat →
  ∃ lines, exec (ackCallback m rc r) st = upd_console (λ c, c ++ lines) st.
Proof.
  intros Hnone Hcase. destruct (ack_success r) eqn:Hok.
  - exists [LogAckReceived r; LogConfirmed (msg_id m)].
    rewrite late_ack_ok_noop by done. destruct st.
    cbv [upd_console]. simpl. by rewrite <- app_assoc.
  - destruct Hcase as [|Hrc]; [done|].
    exists [LogAckReceived r; ErrServer (ack_error r); ErrFailed (msg_id m)].
    rewrite late_nack_exhausted_noop by done. destruct st.
    cbv [upd_console]. simpl. by rewrite <- !app_assoc.
Qed.

Lemma late_ack_only_logs_witness :
  ∃ st lines,
    run hi_unanswered mounted = Some st
    ∧ exec (ackCallback hi 3 nack) st = upd_console (λ c, c ++ lines) st.
Proof.
  eexists. 
  match goal with |- ∃ l, run _ _ = Some ?s ∧ _ =>
    assert (run hi_unanswered mounted = Some s) as Hrun by evaluate
  end.
  match type of Hrun with _ = Some ?s =>
    destruct (late_ack_only_logs hi 3 nack s) as [lines Hl];
      [evaluate|right; unfold MAX_RETRIES; lia|]
  end.
  exists lines. by split.
Defined.

Lemma acked_then_unanswered_never_resent_witness :
  ∃ st st1 st',
    run hi_submitted mounted = Some st
    ∧ step (EvAck 0 ack_ok) st = Some st1
    ∧ run [EvAdvance 3000; EvTimer 1; EvDisconnect; EvAdvance 9000] st1
      = Some st'
    ∧ emits_of hi_id st' = emits_of hi_id st.
Proof.
  do 3 eexists. split; [evaluate|]. split; [evaluate|]. split; [evaluate|].
  match goal with |- emits_of _ ?s' = emits_of _ ?s =>
    destruct (acked_then_unanswered_never_resent 0 ack_ok (mkAckWait hi 0)
                [EvAdvance 3000; EvTimer 1; EvDisconnect; EvAdvance 9000]
                s (exec (ackCallback hi 0 ack_ok) (upd_acks (delete 0%N) s))
                s') as [_ H]
  end.
  - apply (run_wf_timers hi_submitted mounted); [evaluate|].
    apply initial_wf_timers.
  - evaluate.
  - reflexivity.
  - evaluate.
  - evaluate.
  - vm_compute. tauto.
  - exact H.
Defined.

(** A negative answer to the attempt the ledger currently holds, before
    the retries are used up, sends the message again at once, without
    waiting for the deadline: the armed timer is cancelled, the retry
    count goes up by one and a new timer is armed one [RETRY_TIMEOUT]
    from now. *)
Theorem nack_retransmits_at_once
    (k : N) (r : AckResponse) (m : Message) (rc : nat) (t : positive)
    (st : State) :
  acks st !! k = Some (mkAckWait m rc) →
  pendingMessages st !! msg_id m = Some (mkPending m rc (Some t)) →
  ack_success r = false →
  (rc < MAX_RETRIES)%nat →
  ∃ st', step (EvAck k r) st = Some st'
         ∧ sent st' = sent st ++ [mkEmission (now st) m]
         ∧ pendingMessages st'
           = <[msg_id m := mkPending m (rc + 1) (Some (nextTimer st))]>
               (pendingMessages st)
         ∧ timers st'
           = <[nextTimer st := mkTimer m (rc + 1) (now st + RETRY_TIMEOUT)]>
               (delete t (timers st))
         ∧ acks st'
           = <[nextAck st := mkAckWait m (rc + 1)]> (delete k (acks st))
         ∧ view st' = view st.
Proof.
  intros Hk Hp Hok Hrc. eexists. split.
  { simpl. rewrite Hk. simpl. reflexivity. }
  rewrite ackCallback_exec, Hok, handleMessageFailure_exec.
  destruct (Nat.ltb_spec rc MAX_RETRIES); [|lia].
  rewrite (cancelRecorded_present _ (mkPending m rc (Some t)) t) by done.
  by rewrite sendMessageWithRetry_exec.
Qed.

Lemma nack_retransmits_at_once_witness :
  ∃ st st',
    run (hi_submitted ++ [EvAdvance 200]) mounted = Some st
    ∧ step (EvAck 0 nack) st = Some st'
    ∧ em_time <$> sent st' = [1000; 1200]
    ∧ timers st' = {[ 2%positive := mkTimer hi 1 4200 ]}.
Proof.
  assert (∃ st, run (hi_submitted ++ [EvAdvance 200]) mounted = Some st)
    as [st Hrun] by (eexists; evaluate).
  exists st. pose proof Hrun as Hst. vm_compute in Hst.
  injection Hst as <-.
  match type of Hrun with _ = Some ?s =>
    destruct (nack_retransmits_at_once 0 nack hi 0 1 s)
      as (st' & Hstep & Hs & _ & Ht & _);
      [evaluate|evaluate|reflexivity|unfold MAX_RETRIES; lia|]
  end.
  exists st'. split; [exact Hrun|]. split; [exact Hstep|].
  rewrite Hs, Ht. split; evaluate.
Defined.

(** ** What the agent keeps is always well formed *)

Lemma own_message_later me b b' m :
  b ≤ b' → own_message me b m → own_message me b' m.
Proof.
  intros Hb (? & ? & ? & t & rnd & ? & ?).
  repeat split; try done. exists t, rnd. split; [done|lia].
Qed.

Lemma agent_inv_frame st st' :
  same_agent st st' → agent_inv st → agent_inv st'.
Proof.
  intros (Hme & Hp & Ht & Hnt & Ha & Hna & Hs & Hn).
  unfold agent_inv, retries_bounded, ledger_consistent, acks_match,
    own_traffic.
  by rewrite Hme, Hp, Ht, Hnt, Ha, Hna, Hs, Hn.
Qed.

Lemma agent_inv_upd_console f st :
  agent_inv st → agent_inv (upd_console f st).
Proof. by apply agent_inv_frame. Qed.

Lemma agent_inv_upd_message f st :
  agent_inv st → agent_inv (upd_message f st).
Proof. by apply agent_inv_frame. Qed.

Ltac unfold_inv :=
  unfold agent_inv, retries_bounded, ledger_consistent, acks_match,
    own_traffic.

Lemma agent_inv_delete_ack k st :
  agent_inv st → agent_inv (upd_acks (delete k) st).
Proof.
  unfold_inv.
  intros ((Hrp & Hrt & Hra) & (Hlp & Hlt) & (Hn & Ham) & (Hos & Hop & Hot & Hoa)).
  split_and!; simpl; try done;
    intros ? ? [_ ?]%lookup_delete_Some; by eauto.
Qed.

Lemma agent_inv_delete_timer t st :
  agent_inv st → agent_inv (upd_timers (delete t) st).
Proof.
  unfold_inv.
  intros ((Hrp & Hrt & Hra) & (Hlp & Hlt) & (Hn & Ham) & (Hos & Hop & Hot & Hoa)).
  split_and!; simpl; try done;
    try (intros ? ? [_ ?]%lookup_delete_Some; by eauto).
  intros j p Hp. destruct (Hlp j p Hp) as (? & t' & ? & ? & Htm).
  split; [done|]. exists t'. split_and!; try done.
  intros tm [_ Htm']%lookup_delete_Some. eauto.
Qed.

Lemma agent_inv_delete_pending i st :
  agent_inv st → agent_inv (upd_pendingMessages (delete i) st).
Proof.
  unfold_inv.
  intros ((Hrp & Hrt & Hra) & (Hlp & Hlt) & (Hn & Ham) & (Hos & Hop & Hot & Hoa)).
  split_and!; simpl; try done;
    intros ? ? [_ ?]%lookup_delete_Some; by eauto.
Qed.

Lemma agent_inv_advance dt st :
  0 ≤ dt → agent_inv st → agent_inv (upd_now (λ t, t + dt) st).
Proof.
  unfold_inv.
  intros Hdt
    ((Hrp & Hrt & Hra) & (Hlp & Hlt) & (Hn & Ham) & (Hos & Hop & Hot & Hoa)).
  split_and!; simpl; try done.
  - intros t tm Htm. destruct (Hlt t tm Htm). split; [done|lia].
  - intros e He. destruct (Hos e He). split; [done|lia].
  - intros j p Hp. eapply own_message_later; [|by eapply Hop]. lia.
  - intros t tm Htm. eapply own_message_later; [|by eapply Hot]. lia.
  - intros k w Hw. eapply own_message_later; [|by eapply Hoa]. lia.
Qed.

Lemma agent_inv_cancelRecorded i st :
  agent_inv st → agent_inv (cancelRecorded i st).
Proof.
  unfold cancelRecorded. destruct (_ ≫= _); [|done].
  apply agent_inv_delete_timer.
Qed.

Lemma agent_inv_sendMessageWithRetry m rc st :
  (rc ≤ MAX_RETRIES)%nat →
  own_message (MY_USER_ID st) (now st) m →
  agent_inv st → agent_inv (exec (sendMessageWithRetry m rc) st).
Proof.
  rewrite sendMessageWithRetry_exec. unfold_inv. intros Hrc Hown
    ((Hrp & Hrt & Hra) & (Hlp & Hlt) & (Hn & Ham) & (Hos & Hop & Hot & Hoa)).
  split_and!; simpl.
  - intros j p [[<- <-]|[_ Hp]]%lookup_insert_Some; [done|eauto].
  - intros t tm [[<- <-]|[_ Htm]]%lookup_insert_Some; [done|eauto].
  - intros k w [[<- <-]|[_ Hw]]%lookup_insert_Some; [done|eauto].
  - intros j p [[<- <-]|[Hj Hp]]%lookup_insert_Some; simpl.
    + split; [done|]. exists (nextTimer st). split_and!; [done|lia|].
      rewrite lookup_insert_eq. by intros tm [= <-].
    + destruct (Hlp j p Hp) as (? & t & ? & ? & Htm).
      split; [done|]. exists t. split_and!; [done|lia|].
      rewrite lookup_insert_ne by lia. done.
  - intros t tm [[<- <-]|[_ Htm]]%lookup_insert_Some; simpl.
    + split; [lia|lia].
    + destruct (Hlt t tm Htm). split; [lia|done].
  - rewrite length_app. simpl. lia.
  - intros k w [[<- <-]|[Hk Hw]]%lookup_insert_Some; simpl.
    + exists (mkEmission (now st) m). split; [|done].
      rewrite Hn, Nat2N.id. by apply list_lookup_middle.
    + destruct (Ham k w Hw) as (e & He & Hm). exists e. split; [|done].
      by apply lookup_app_l_Some.
  - intros e [He|Hx]%elem_of_app; [by apply Hos|].
    apply list_elem_of_singleton in Hx as ->. simpl. split; [done|lia].
  - intros j p [[<- <-]|[_ Hp]]%lookup_insert_Some; [done|eauto].
  - intros t tm [[<- <-]|[_ Htm]]%lookup_insert_Some; [done|eauto].
  - intros k w [[<- <-]|[_ Hw]]%lookup_insert_Some; [done|eauto].
Qed.

Lemma agent_inv_handleMessageFailure m rc st :
  own_message (MY_USER_ID st) (now st) m →
  agent_inv st → agent_inv (exec (handleMessageFailure m rc) st).
Proof.
  intros Hown Hinv. rewrite handleMessageFailure_exec.
  pose proof (agent_inv_cancelRecorded (msg_id m) st Hinv) as Hc.
  assert (MY_USER_ID (cancelRecorded (msg_id m) st) = MY_USER_ID st
          ∧ now (cancelRecorded (msg_id m) st) = now st) as [Hme Hnow].
  { unfold cancelRecorded. by destruct (_ ≫= _). }
  destruct (Nat.ltb_spec rc MAX_RETRIES).
  - apply agent_inv_sendMessageWithRetry; [lia| |].
    + simpl. by rewrite Hme, Hnow.
    + by apply agent_inv_upd_console.
  - by apply agent_inv_delete_pending, agent_inv_upd_console.
Qed.

Lemma initial_agent_inv me t0 c : agent_inv (initial me t0 c).
Proof.
  unfold_inv. simpl. split_and!; try done;
    try (intros *; by rewrite lookup_empty).
  intros e He. by apply elem_of_nil in He.
Qed.

Lemma step_agent_inv e st st' :
  step e st = Some st' → agent_inv st → agent_inv st'.
Proof.
  intros Hstep Hinv. destruct e;
    [| |apply step_ack_inv in Hstep as (w & Hw & ->)
       |apply step_timer_inv in Hstep as (tm & Htm & _ & ->)
       |apply step_advance_inv in Hstep as [Hdt ->]| ..];
    simpl in *; simplify_eq.
  - by apply agent_inv_upd_message.
  - rewrite sendMessage_exec. destruct (truthy _) eqn:Htr; [|done].
    apply agent_inv_upd_message, agent_inv_sendMessageWithRetry;
      [unfold MAX_RETRIES; lia| |done].
    split_and!; simpl; try done.
    + by destruct (trim (message st)).
    + by exists (now st), rnd.
  - assert (own_message (MY_USER_ID st) (now st) (aw_msg w)) as Hown
      by (by apply Hinv in Hw).
    rewrite ackCallback_exec. destruct (ack_success _).
    + by apply agent_inv_upd_console, agent_inv_delete_pending,
        agent_inv_upd_console, agent_inv_delete_ack.
    + by apply agent_inv_handleMessageFailure, agent_inv_upd_console,
        agent_inv_upd_console, agent_inv_delete_ack.
  - assert (own_message (MY_USER_ID st) (now st) (tm_msg tm)) as Hown
      by (by apply Hinv in Htm).
    rewrite timerCallback_exec. case_bool_decide.
    + by apply agent_inv_handleMessageFailure, agent_inv_upd_console,
        agent_inv_delete_timer.
    + by apply agent_inv_delete_timer.
  - by apply agent_inv_advance.
  - by apply (agent_inv_frame st).
  - by apply (agent_inv_frame st).
  - by apply (agent_inv_frame st).
  - by apply (agent_inv_frame st).
  - rewrite handleSyncMessages_exec. by apply (agent_inv_frame st).
  - rewrite handleReceiveMessage_exec.
    case_bool_decide; by apply (agent_inv_frame st).
  - by apply (agent_inv_frame st).
Qed.

Lemma run_agent_inv evs st st' :
  run evs st = Some st' → agent_inv st → agent_inv st'.
Proof.
  revert st. induction evs as [|e evs IH]; simpl; intros st Hrun Hinv.
  - by simplify_eq.
  - destruct (step e st) as [st1|] eqn:Hstep; simpl in *; [|done].
    eauto using step_agent_inv.
Qed.




(** ** What holds in every session since mounting *)

(** Since mounting, no retry count ever exceeds [MAX_RETRIES], wherever
    it is kept: in a ledger entry, in the closure of an armed timer or
    in the closure of an acknowledgment callback. *)
Theorem retry_counts_bounded
    (me : jsstring) (t0 : Z) (c : bool) (evs : list Event) (st : State) :
  run evs (initial me t0 c) = Some st → retries_bounded st.
Proof.
  intros Hrun. by apply (run_agent_inv _ _ _ Hrun), initial_agent_inv.
Qed.

Lemma retry_counts_bounded_witness :
  ∃ st p, run hi_last_deadline mounted = Some st
          ∧ pendingMessages st !! hi_id = Some p
          ∧ (retryCount p ≤ MAX_RETRIES)%nat.
Proof.
  assert (∃ st, run hi_last_deadline mounted = Some st) as [st Hrun]
    by (eexists; evaluate).
  exists st, (mkPending hi 3 (Some 4%positive)).
  split; [done|].
  assert (pendingMessages st !! hi_id = Some (mkPending hi 3 (Some 4%positive)))
    as Hp by (vm_compute in Hrun; injection Hrun as <-; evaluate).
  split; [done|].
  destruct (retry_counts_bounded (of_ascii "me") 1000 true
              hi_last_deadline st Hrun) as (Hb & _ & _).
  apply (Hb _ _ Hp).
Defined.

(** Since mounting, a ledger entry sits under the id of its own message
    and records the handle of a timer that was really armed for that
    message and that attempt; no armed timer is due later than one
    [RETRY_TIMEOUT] from now. *)
Theorem ledger_stays_consistent
    (me : jsstring) (t0 : Z) (c : bool) (evs : list Event) (st : State) :
  run evs (initial me t0 c) = Some st → ledger_consistent st.
Proof.
  intros Hrun. by apply (run_agent_inv _ _ _ Hrun), initial_agent_inv.
Qed.

Lemma ledger_stays_consistent_witness :
  ∃ st tm, run (hi_submitted ++ timeout_of 1 ++ [EvAdvance 500]) mounted
           = Some st
           ∧ timers st !! 2%positive = Some tm
           ∧ tm_deadline tm ≤ now st + RETRY_TIMEOUT.
Proof.
  assert (∃ st, run (hi_submitted ++ timeout_of 1 ++ [EvAdvance 500]) mounted
                = Some st) as [st Hrun] by (eexists; evaluate).
  exists st, (mkTimer hi 1 7000). split; [done|].
  assert (timers st !! 2%positive = Some (mkTimer hi 1 7000)) as Ht
    by (vm_compute in Hrun; injection Hrun as <-; evaluate).
  split; [done|].
  destruct (ledger_stays_consistent (of_ascii "me") 1000 true _ st Hrun)
    as [_ Hl].
  apply (Hl _ _ Ht).
Defined.

(** Since mounting, the acknowledgment number handed to the next
    transmission is the number of transmissions so far, and a callback
    that still waits under number [k] captured the message of the
    [k]-th transmission. *)
Theorem acks_mirror_emissions
    (me : jsstring) (t0 : Z) (c : bool) (evs : list Event) (st : State) :
  run evs (initial me t0 c) = Some st → acks_match st.
Proof.
  intros Hrun. by apply (run_agent_inv _ _ _ Hrun), initial_agent_inv.
Qed.

Lemma acks_mirror_emissions_witness :
  ∃ st, run hi_unanswered mounted = Some st
        ∧ nextAck st = 4%N ∧ length (sent st) = 4%nat.
Proof.
  assert (∃ st, run hi_unanswered mounted = Some st) as [st Hrun]
    by (eexists; evaluate).
  exists st. split; [done|].
  destruct (acks_mirror_emissions (of_ascii "me") 1000 true _ st Hrun)
    as [Hn _].
  assert (length (sent st) = 4%nat) as Hlen
    by (vm_compute in Hrun; by injection Hrun as <-).
  split; [|done]. by rewrite Hn, Hlen.
Defined.



(** ** Retries die out *)

Section total.
Context {K A : Type} `{Countable K} (w : A → nat).

Lemma total_empty : total w (∅ : gmap K A) = 0%nat.
Proof. apply map_fold_empty. Qed.

Lemma total_insert_fresh (m : gmap K A) k x :
  m !! k = None → total w (<[k:=x]> m) = (w x + total w m)%nat.
Proof.
  intros Hk. unfold total. rewrite map_fold_insert_L; [done| |done].
  intros. lia.
Qed.

Lemma total_delete (m : gmap K A) k x :
  m !! k = Some x → total w m = (w x + total w (delete k m))%nat.
Proof.
  intros Hk. rewrite <- (insert_delete_id m k x) at 1 by done.
  apply total_insert_fresh, lookup_delete_eq.
Qed.

Lemma total_delete_le (m : gmap K A) k :
  (total w (delete k m) ≤ total w m)%nat.
Proof.
  destruct (m !! k) as [x|] eqn:Hk.
  - rewrite (total_delete m k x Hk). lia.
  - by rewrite delete_id.
Qed.

Lemma total_insert_le (m : gmap K A) k x :
  (total w (<[k:=x]> m) ≤ w x + total w m)%nat.
Proof.
  rewrite <- insert_delete_eq.
  rewrite total_insert_fresh by apply lookup_delete_eq.
  pose proof (total_delete_le m k). lia.
Qed.
End total.

Lemma weight_step rc :
  (rc < MAX_RETRIES)%nat → weight rc = (1 + 2 * weight (rc + 1))%nat.
Proof.
  unfold MAX_RETRIES. intros Hrc.
  destruct rc as [|[|[|rc]]]; [done..|lia].
Qed.

Lemma potential_cancelRecorded i st :
  (potential (cancelRecorded i st) ≤ potential st)%nat
  ∧ sent (cancelRecorded i st) = sent st.
Proof.
  unfold cancelRecorded. destruct (_ ≫= _) as [t|]; [|done].
  split; [|done]. unfold potential. simpl.
  pose proof (total_delete_le (λ tm, weight (tm_retry tm)) (timers st) t).
  lia.
Qed.

Lemma potential_sendMessageWithRetry m rc st :
  (length (sent (exec (sendMessageWithRetry m rc) st))
   + potential (exec (sendMessageWithRetry m rc) st)
   ≤ length (sent st) + potential st + 1 + 2 * weight rc)%nat.
Proof.
  rewrite sendMessageWithRetry_exec. unfold potential. simpl.
  rewrite length_app. simpl.
  pose proof (total_insert_le (λ w, weight (aw_retry w)) (acks st)
                (nextAck st) (mkAckWait m rc)).
  pose proof (total_insert_le (λ tm, weight (tm_retry tm)) (timers st)
                (nextTimer st) (mkTimer m rc (now st + RETRY_TIMEOUT))).
  simpl in *. lia.
Qed.

(** Running the failure path for a closure with retry count [rc] uses
    up no more than the weight of that closure. *)
Lemma potential_handleMessageFailure m rc st :
  (length (sent (exec (handleMessageFailure m rc) st))
   + potential (exec (handleMessageFailure m rc) st)
   ≤ length (sent st) + potential st + weight rc)%nat.
Proof.
  rewrite handleMessageFailure_exec.
  destruct (potential_cancelRecorded (msg_id m) st) as [Hp Hs].
  destruct (Nat.ltb_spec rc MAX_RETRIES) as [Hlt|Hge].
  - pose proof (potential_sendMessageWithRetry m (rc + 1)
      (upd_console (λ c, c ++ [LogRetrying (msg_id m) (rc + 1)])
         (cancelRecorded (msg_id m) st))) as Hsend.
    rewrite (weight_step rc Hlt).
    change (potential (upd_console _ ?s)) with (potential s) in Hsend.
    change (sent (upd_console _ ?s)) with (sent s) in Hsend.
    rewrite Hs in Hsend. lia.
  - change (potential (upd_pendingMessages _ (upd_console _ ?s)))
      with (potential s).
    change (sent (upd_pendingMessages _ (upd_console _ ?s))) with (sent s).
    rewrite Hs. lia.
Qed.

Lemma step_potential e st st' :
  step e st = Some st' →
  (length (sent st') + potential st'
   ≤ length (sent st) + potential st + 15 * submissions [e])%nat.
Proof.
  intros Hstep. destruct e;
    [| |apply step_ack_inv in Hstep as (w & Hw & ->)
       |apply step_timer_inv in Hstep as (tm & Htm & _ & ->)
       |apply step_advance_inv in Hstep as [Hdt ->]| ..];
    simpl in *; simplify_eq; try (unfold potential; simpl; lia).
  - (* submit *)
    rewrite sendMessage_exec. destruct (truthy _); [|lia].
    pose proof (potential_sendMessageWithRetry
      (mkMessage (message st) (MY_USER_ID st) (newId (now st) rnd) None) 0 st)
      as Hsend.
    change (potential (upd_message _ ?s)) with (potential s).
    change (sent (upd_message _ ?s)) with (sent s).
    change (weight 0) with 7%nat in Hsend. lia.
  - (* acknowledgment *)
    assert (potential st
            = (weight (aw_retry w) + potential (upd_acks (delete k) st))%nat)
      as Hpot.
    { unfold potential. simpl.
      rewrite (total_delete (λ w, weight (aw_retry w)) (acks st) k w Hw).
      lia. }
    rewrite ackCallback_exec. destruct (ack_success _).
    + change (potential (upd_console _ (upd_pendingMessages _
                (upd_console _ ?s)))) with (potential s).
      simpl. lia.
    + pose proof (potential_handleMessageFailure (aw_msg w) (aw_retry w)
        (upd_console (λ c, c ++ [ErrServer (ack_error ackResponse)])
           (upd_console (λ c, c ++ [LogAckReceived ackResponse])
              (upd_acks (delete k) st)))) as Hf.
      change (potential (upd_console _ (upd_console _ ?s)))
        with (potential s) in Hf.
      change (sent (upd_console _ (upd_console _ (upd_acks _ ?s))))
        with (sent s) in Hf.
      lia.
  - (* timer *)
    assert (potential st
            = (weight (tm_retry tm) + potential (upd_timers (delete t) st))%nat)
      as Hpot.
    { unfold potential. simpl.
      rewrite (total_delete (λ tm, weight (tm_retry tm)) (timers st) t tm Htm).
      lia. }
    rewrite timerCallback_exec. case_bool_decide.
    + pose proof (potential_handleMessageFailure (tm_msg tm) (tm_retry tm)
        (upd_console (λ c, c ++ [WarnNoAck (msg_id (tm_msg tm))])
           (upd_timers (delete t) st))) as Hf.
      change (potential (upd_console _ ?s)) with (potential s) in Hf.
      change (sent (upd_console _ (upd_timers _ ?s))) with (sent s) in Hf.
      lia.
    + simpl. lia.
  - (* sync_messages *)
    rewrite handleSyncMessages_exec. unfold potential. simpl. lia.
  - (* receive_message *)
    rewrite handleReceiveMessage_exec.
    case_bool_decide; unfold potential; simpl; lia.
Qed.

Lemma submissions_cons e evs :
  submissions (e :: evs) = (submissions [e] + submissions evs)%nat.
Proof. by destruct e. Qed.

Lemma run_potential evs st st' :
  run evs st = Some st' →
  (length (sent st') + potential st'
   ≤ length (sent st) + potential st + 15 * submissions evs)%nat.
Proof.
  revert st. induction evs as [|e evs IH]; intros st Hrun.
  - simpl in *. simplify_eq. lia.
  - cbn [run] in Hrun.
    destruct (step e st) as [st1|] eqn:Hstep; simpl in Hrun; [|done].
    pose proof (step_potential _ _ _ Hstep). pose proof (IH st1 Hrun).
    rewrite (submissions_cons e evs). lia.
Qed.

(** Whatever the relay answers and whenever the timers fire, a session
    transmits at most fifteen times per form submission: the original,
    and the retransmissions that the acknowledgment callbacks and the
    timers of the transmissions can cause before the retry counts reach
    [MAX_RETRIES]. A relay that refuses every transmission late enough
    makes a single message go out fifteen times. *)
Theorem emissions_bounded :
  (∀ me t0 c evs st,
     run evs (initial me t0 c) = Some st →
     (length (sent st) ≤ 15 * submissions evs)%nat)
  ∧ ∃ st, run hi_worst_case mounted = Some st
          ∧ submissions hi_worst_case = 1%nat
          ∧ length (emits_of hi_id st) = 15%nat.
Proof.
  split.
  - intros me t0 c evs st Hrun. pose proof (run_potential _ _ _ Hrun) as H.
    change (potential (initial me t0 c)) with 0%nat in H. simpl in H. lia.
  - eexists. split; [evaluate|]. split; evaluate.
Qed.

Lemma emissions_bounded_witness :
  ∃ st, run hi_unanswered mounted = Some st
        ∧ (length (sent st) ≤ 15)%nat.
Proof.
  assert (∃ st, run hi_unanswered mounted = Some st) as [st Hrun]
    by (eexists; evaluate).
  exists st. split; [done|].
  destruct emissions_bounded as [Hb _].
  apply (Hb _ _ _ _ _ Hrun).
Defined.

(** ** The timeline as a function of the deliveries *)

(** The timeline after a run is the timeline before it followed by what
    the dedup filter lets through of all the messages delivered during
    the run, live ones and batches alike, taken as one sequence in the
    order of arrival. *)
Theorem timeline_is_filtered_deliveries
    (evs : list Event) (st st' : State) :
  run evs st = Some st' →
  messages st'
  = messages st ++ (admitBatch (receivedMessageIds st) (deliveries evs)).1
  ∧ receivedMessageIds st'
    = (admitBatch (receivedMessageIds st) (deliveries evs)).2.
Proof.
  revert st. induction evs as [|e evs IH]; simpl; intros st Hrun.
  - simplify_eq. by rewrite app_nil_r.
  - destruct (step e st) as [st1|] eqn:Hstep; simpl in *; [|done].
    destruct (IH st1 Hrun) as [Hm Hs].
    apply step_timeline in Hstep as [Hm1 Hs1].
    change (delivered e ++ evs ≫= delivered)
      with (delivered e ++ deliveries evs).
    rewrite admitBatch_app. simpl.
    rewrite Hm, Hs, Hm1, Hs1. by rewrite app_assoc.
Qed.

Lemma timeline_is_filtered_deliveries_witness :
  let a := mkMessage (of_ascii "one") (of_ascii "bob") (of_ascii "a") None in
  let b := mkMessage (of_ascii "two") (of_ascii "eve") (of_ascii "b") None in
  ∃ st, run ([EvReceiveMessage b] ++ hi_submitted
             ++ [EvSyncMessages [a; b]; EvReceiveMessage a]) mounted
        = Some st
        ∧ messages st = [b; a].
Proof.
  intros a b.
  assert (∃ st, run ([EvReceiveMessage b] ++ hi_submitted
                     ++ [EvSyncMessages [a; b]; EvReceiveMessage a]) mounted
                = Some st) as [st Hrun] by (eexists; evaluate).
  exists st. split; [done|].
  destruct (timeline_is_filtered_deliveries _ _ _ Hrun) as [-> _].
  evaluate.
Defined.

(** ** One message does not disturb another *)

(** As long as the events are about other messages (their submissions,
    answers to their transmissions, their timers) or about no message
    at all, everything kept about the message id [i] stays as it is: its
    ledger entry, its armed timers, its transmissions and its failure
    reports. *)
Theorem other_messages_undisturbed
    (i : jsstring) (evs : list Event) (st st' : State) :
  wf_timers st →
  run evs st = Some st' →
  undisturbed_run i evs st →
  pendingMessages st' !! i = pendingMessages st !! i
  ∧ timers_of i st' = timers_of i st
  ∧ emits_of i st' = emits_of i st
  ∧ failures_of i st' = failures_of i st.
Proof.
  revert st. induction evs as [|e evs IH]; simpl; intros st Hwf Hrun Hund.
  - by simplify_eq.
  - destruct (step e st) as [st1|] eqn:Hstep; simpl in *; [|done].
    destruct Hund as (Hsil & Htim & Hrest).
    destruct (step_other i e st st1 Hwf Hstep Hsil Htim)
      as (Hp1 & Ht1 & He1 & Hf1).
    destruct (IH st1) as (Hp & Ht & He & Hf);
      eauto using step_wf_timers.
    by rewrite Hp, Ht, He, Hf.
Qed.

Lemma other_messages_undisturbed_witness :
  ∃ st st',
    run (hi_submitted
         ++ [EvAdvance 200; EvInput (of_ascii "yo"); EvSubmit (of_ascii "z9")])
      mounted = Some st
    ∧ run [EvAck 1 nack; EvAdvance 3000; EvTimer 3] st = Some st'
    ∧ length (sent st') = 4%nat
    ∧ pendingMessages st' !! hi_id = Some (mkPending hi 0 (Some 1%positive))
    ∧ emits_of hi_id st' = [mkEmission 1000 hi].
Proof.
  assert (∃ st, run (hi_submitted
                     ++ [EvAdvance 200; EvInput (of_ascii "yo");
                         EvSubmit (of_ascii "z9")]) mounted = Some st)
    as [st Hrun] by (eexists; evaluate).
  assert (wf_timers st) as Hwf
    by (apply (run_wf_timers _ _ _ Hrun), initial_wf_timers).
  exists st. pose proof Hrun as Hst. vm_compute in Hst. injection Hst as <-.
  eexists. split; [exact Hrun|]. split; [evaluate|]. split; [evaluate|].
  match goal with |- pendingMessages ?s' !! _ = _ ∧ _ =>
    match type of Hwf with wf_timers ?s =>
      destruct (other_messages_undisturbed hi_id
                  [EvAck 1 nack; EvAdvance 3000; EvTimer 3] s s' Hwf)
        as (Hp & _ & He & _)
    end
  end.
  - evaluate.
  - vm_compute. split_and!; try done.
    + intros w [= <-]. discriminate.
    + intros t [= <-]. done.
  - rewrite Hp, He. split; evaluate.
Defined.

(** ** The age gate *)

(** The first click decides for good. The modal is shown until one of
    its two buttons is clicked; confirming leads to the chat, denying to
    the refusal screen, and neither screen has those buttons any more: no
    sequence of clicks on them is longer than one, and the chat is only
    ever reached by confirming. *)
Theorem first_click_decides (cs : list Gate.Click) (g : Gate.t) :
  Gate.clicks cs Gate.initial = Some g →
  match cs with
  | [] => Gate.screen g = Gate.AgeModal
  | [Gate.ClickConfirm] => Gate.screen g = Gate.Chat
  | [Gate.ClickDeny] => Gate.screen g = Gate.AccessDenied
  | _ => False
  end.
Proof.
  destruct cs as [|[] [|c cs]]; simpl; try by intros [= <-].
  all: by destruct c.
Qed.

Lemma first_click_decides_witness :
  Gate.screen (Gate.handleUnderage Gate.initial) = Gate.AccessDenied
  ∧ Gate.clicks [Gate.ClickDeny; Gate.ClickConfirm] Gate.initial = None.
Proof.
  split; [|reflexivity].
  apply (first_click_decides [Gate.ClickDeny]). reflexivity.
Defined.

(** ** The first version of the component *)

Lemma V1_step_frame e st st' :
  V1.step e st = Some st' →
  messages st'
  = messages st ++ V1.received [e]
  ∧ pendingMessages st' = pendingMessages st
  ∧ timers st' = timers st
  ∧ acks st' = acks st
  ∧ receivedMessageIds st' = receivedMessageIds st
  ∧ (length (sent st') ≤ length (sent st) + submissions [e])%nat.
Proof.
  destruct e; simpl; intros Hstep; simplify_eq;
    rewrite ?app_nil_r; try (split_and!; [done..|simpl; lia]).
  - unfold V1.sendMessage. unfold_M. unfold V1.socket_emit. unfold_M.
    destruct (truthy _); simpl; split_and!; try done; try lia.
    rewrite length_app. simpl. lia.
  - destruct (0 <=? dt); simplify_eq. simpl. split_and!; try done. lia.
Qed.

(** The first version shows every [receive_message] delivery, as often
    as it arrives: its timeline is the plain sequence of the messages
    received, repeated ids included. It never touches the ledger, the
    timers, the acknowledgment table or the dedup set, and it transmits
    at most once per submission. *)
Theorem V1_shows_every_delivery (evs : list Event) (st st' : State) :
  V1.run evs st = Some st' →
  messages st' = messages st ++ V1.received evs
  ∧ pendingMessages st' = pendingMessages st
  ∧ timers st' = timers st
  ∧ acks st' = acks st
  ∧ receivedMessageIds st' = receivedMessageIds st
  ∧ (length (sent st') ≤ length (sent st) + submissions evs)%nat.
Proof.
  revert st. induction evs as [|e evs IH]; intros st Hrun.
  - simpl in *. simplify_eq. rewrite app_nil_r. split_and!; try done. lia.
  - cbn [V1.run] in Hrun.
    destruct (V1.step e st) as [st1|] eqn:Hstep; simpl in Hrun; [|done].
    destruct (IH st1 Hrun) as (Hm & Hp & Ht & Ha & Hr & Hs).
    destruct (V1_step_frame _ _ _ Hstep) as (Hm1 & Hp1 & Ht1 & Ha1 & Hr1 & Hs1).
    rewrite Hm, Hp, Ht, Ha, Hr, Hm1, Hp1, Ht1, Ha1, Hr1.
    rewrite (submissions_cons e evs). split_and!; try done; [|lia].
    rewrite <- app_assoc. f_equal. unfold V1.received. simpl.
    by rewrite app_nil_r.
Qed.

Lemma V1_shows_every_delivery_witness :
  let a := mkMessage (of_ascii "one") (of_ascii "bob") (of_ascii "a") None in
  ∃ st, V1.run ([EvReceiveMessage a] ++ hi_submitted ++ [EvReceiveMessage a])
          mounted = Some st
        ∧ messages st = [a; a]
        ∧ timers st = ∅.
Proof.
  intros a.
  assert (∃ st, V1.run ([EvReceiveMessage a] ++ hi_submitted
                        ++ [EvReceiveMessage a]) mounted = Some st)
    as [st Hrun] by (eexists; evaluate).
  exists st. split; [done|].
  destruct (V1_shows_every_delivery _ _ _ Hrun) as (-> & _ & -> & _).
  split; evaluate.
Defined.

(** ** The hash is computed exactly *)


